(** * rnx-kit [scripts/src/tasks/updateApiReadme.js]: API tables in README.md

    A shallow embedding of the task that scans the exported declarations of
    a package, extracts the brief of each documentation comment and merges
    two sorted tables into the region of README.md delimited by the
    [@rnx-kit/api] markers.

    Layout: JavaScript strings; the functions of the source file under
    their own names, with the built-ins they call ([sort], [RegExp]
    matching, [String.prototype.replace], the file system); the notions the
    properties are stated with; inputs for concrete runs; the properties. *)

From Stdlib Require Import String Ascii.
From Stdlib Require Import List NArith ZArith Lia Bool Arith.
From Stdlib Require Import Sorting.Sorted Sorting.Permutation.
Import ListNotations.

Set Implicit Arguments.
Set Warnings "-register-all".

(* ================================================================== *)
(** * Part I.  JavaScript strings *)
(* ================================================================== *)

(** A JavaScript string is a finite sequence of UTF-16 code units. *)
Definition jsstring := list N.

(** ASCII literals of the source, one code unit per character. *)
Definition lit (s : string) : jsstring :=
  map N_of_ascii (list_ascii_of_string s).

Definition LF : N := 10.        (* "\n" *)
Definition SPACE : N := 32.     (* " " *)
Definition DOLLAR : N := 36.    (* "$" *)
Definition AMPERSAND : N := 38. (* "&" *)
Definition QUOTE : N := 39.     (* "'" *)
Definition LESS : N := 60.      (* "<" *)
Definition BACKTICK : N := 96.  (* "`" *)

(** [x === y] on strings. *)
Fixpoint streq (x y : jsstring) : bool :=
  match x, y with
  | [], [] => true
  | a :: x', b :: y' => N.eqb a b && streq x' y'
  | _, _ => false
  end.

(** [x < y] on strings: code-unit-wise lexicographic comparison, a proper
    prefix being smaller. *)
Fixpoint strlt (x y : jsstring) : bool :=
  match x, y with
  | _, [] => false
  | [], _ :: _ => true
  | a :: x', b :: y' =>
      if N.ltb a b then true
      else if N.ltb b a then false
      else strlt x' y'
  end.

(** [startsWith]: when [p] is a prefix of [s], what follows it. *)
Fixpoint stripPrefix (p s : jsstring) : option jsstring :=
  match p, s with
  | [], _ => Some s
  | _ :: _, [] => None
  | a :: p', b :: s' => if N.eqb a b then stripPrefix p' s' else None
  end.

Definition startsWith (p s : jsstring) : bool :=
  match stripPrefix p s with Some _ => true | None => false end.

(** [hay.indexOf(needle)], scanning from [pos]; -1 when absent. *)
Fixpoint indexOfFrom (needle hay : jsstring) (pos : nat) : Z :=
  if startsWith needle hay then Z.of_nat pos
  else match hay with
       | [] => (-1)%Z
       | _ :: hay' => indexOfFrom needle hay' (S pos)
       end.

Definition indexOf (hay needle : jsstring) : Z := indexOfFrom needle hay 0.

(** [s.substring(from, to)]: both ends clamped to [0, length], swapped when
    out of order. *)
Definition substring (s : jsstring) (from to : Z) : jsstring :=
  let len := Z.of_nat (length s) in
  let a := Z.min (Z.max from 0) len in
  let b := Z.min (Z.max to 0) len in
  let lo := Z.to_nat (Z.min a b) in
  let hi := Z.to_nat (Z.max a b) in
  firstn (hi - lo) (skipn lo s).

(** WhiteSpace and LineTerminator code units, as stripped by [trim]. *)
Definition isWhiteSpace (c : N) : bool :=
  existsb (N.eqb c)
    [9; 10; 11; 12; 13; 32; 160; 5760; 8232; 8233; 8239; 8287; 12288; 65279]%N
  || (N.leb 8192 c && N.leb c 8202).

Fixpoint trimStart (s : jsstring) : jsstring :=
  match s with
  | c :: s' => if isWhiteSpace c then trimStart s' else s
  | [] => []
  end.

Definition trimEnd (s : jsstring) : jsstring := rev (trimStart (rev s)).

Definition trim (s : jsstring) : jsstring := trimEnd (trimStart s).

(** [s.replace(/\n/g, " ")]: every line feed becomes one space (the
    replacement text has no [$] pattern). *)
Definition replaceLineFeeds (s : jsstring) : jsstring :=
  map (fun c => if N.eqb c LF then SPACE else c) s.

(** [parts.join(sep)]. *)
Fixpoint join (sep : jsstring) (parts : list jsstring) : jsstring :=
  match parts with
  | [] => []
  | [p] => p
  | p :: rest => p ++ sep ++ join sep rest
  end.

(** Positions at which [p] occurs in [s]. *)
Definition occursAt (p s : jsstring) (i : nat) : bool :=
  (i <=? length s) && startsWith p (skipn i s).

Definition occurrences (p s : jsstring) : list nat :=
  filter (occursAt p s) (seq 0 (S (length s))).

(* ================================================================== *)
(** * Part II.  The source file *)
(* ================================================================== *)

Definition README : jsstring := lit "README.md".
Definition TOKEN_START : jsstring := lit "<!-- @rnx-kit/api start -->".
Definition TOKEN_END : jsstring := lit "<!-- @rnx-kit/api end -->".

Definition PARAGRAPH_BREAK : jsstring := [LF; LF].

Definition extractBrief (summary : jsstring) : jsstring :=
  let newParagraph := indexOf summary PARAGRAPH_BREAK in
  replaceLineFeeds
    (trim (if (newParagraph >? 0)%Z
           then substring summary 0 newParagraph
           else summary)).

(** ** Comments and [findLastBlockComment] *)

Inductive CommentType := CommentBlock | CommentLine.

Record Comment := { type : CommentType; value : jsstring }.

Definition isCommentBlock (c : Comment) : bool :=
  match type c with CommentBlock => true | CommentLine => false end.

(** The loop runs from the last index down to 0 and returns at the first
    block comment it meets: recursion on the list, the tail searched first. *)
Fixpoint lastBlockComment (comments : list Comment) : option Comment :=
  match comments with
  | [] => None
  | c :: later =>
      match lastBlockComment later with
      | Some found => Some found
      | None => if isCommentBlock c then Some c else None
      end
  end.

Definition findLastBlockComment (comments : option (list Comment))
  : option Comment :=
  match comments with
  | Some cs => lastBlockComment cs
  | None => None
  end.

(** ** Results of code that may throw *)

Definition Error := jsstring.

Inductive Result (A : Type) :=
| Ok (a : A)
| Throw (e : Error).

Arguments Ok {A} a.
Arguments Throw {A} e.

Definition isThrow {A} (r : Result A) : bool :=
  match r with Throw _ => true | Ok _ => false end.

(** [xs.map(f)] where [f] may throw: the first exception aborts the map. *)
Fixpoint mapResult {A B} (f : A -> Result B) (xs : list A) : Result (list B) :=
  match xs with
  | [] => Ok []
  | x :: xs' =>
      match f x with
      | Throw e => Throw e
      | Ok y => match mapResult f xs' with
                | Throw e => Throw e
                | Ok ys => Ok (y :: ys)
                end
      end
  end.

(** ** Syntax trees (the part of @babel/types the task inspects) *)

(** Expressions are carried by the patterns but never inspected. *)
Inductive Expression :=
| ArrayExpression (elements : list Expression)
| OtherExpression (source : jsstring).

(** [LVal]: the seven node types [renderParamNode] switches over. *)
Inductive LVal :=
| ArrayPattern (elements : list (option LVal))
| AssignmentPattern (left : LVal) (right : Expression)
| Identifier (name : jsstring)
| MemberExpression (object property : Expression) (computed : bool)
| ObjectPattern (properties : list (jsstring * LVal))
| RestElement (argument : LVal)
| TSParameterProperty (parameter : LVal).

(** [node.type] *)
Definition nodeType (node : LVal) : jsstring :=
  match node with
  | ArrayPattern _ => lit "ArrayPattern"
  | AssignmentPattern _ _ => lit "AssignmentPattern"
  | Identifier _ => lit "Identifier"
  | MemberExpression _ _ _ => lit "MemberExpression"
  | ObjectPattern _ => lit "ObjectPattern"
  | RestElement _ => lit "RestElement"
  | TSParameterProperty _ => lit "TSParameterProperty"
  end.

Definition unsupportedParameter (node : LVal) : Error :=
  lit "Unsupported parameter type: " ++ nodeType node.

Fixpoint renderParamNode (node : LVal) : Result jsstring :=
  match node with
  | ArrayPattern _ => Ok (lit "[]")
  | AssignmentPattern left_ _ => renderParamNode left_
  | Identifier name => Ok name
  | MemberExpression _ _ _ => Throw (unsupportedParameter node)
  | ObjectPattern _ => Ok (lit "{}")
  | RestElement argument =>
      match renderParamNode argument with
      | Ok s => Ok (lit "..." ++ s)
      | Throw e => Throw e
      end
  | TSParameterProperty _ => Throw (unsupportedParameter node)
  end.

(** The declaration wrapped by a named export.  [id] is [None] when it is
    not an [Identifier]. *)
Inductive Declaration :=
| FunctionDeclaration (id : option jsstring) (params : list LVal)
| TSInterfaceDeclaration (id : option jsstring)
| TSTypeAliasDeclaration (id : option jsstring)
| OtherDeclaration (kind : jsstring).

(** A top-level statement of [program.body]. *)
Inductive Statement :=
| ExportNamedDeclaration (declaration : option Declaration)
                         (leadingComments : option (list Comment))
| OtherStatement (kind : jsstring).

Definition isFunctionDeclaration (d : option Declaration) : bool :=
  match d with
  | Some (FunctionDeclaration _ _) => true
  | _ => false
  end.

(** [getExportedName(node)] for an [ExportNamedDeclaration] with the given
    [declaration]. *)
Definition getExportedName (declaration : option Declaration) : jsstring :=
  match declaration with
  | Some (FunctionDeclaration id _)
  | Some (TSInterfaceDeclaration id)
  | Some (TSTypeAliasDeclaration id) =>
      match id with
      | None => []
      | Some name => name
      end
  | _ => []
  end.

(** The [identifier] constant of [updateApiReadme]: the signature of a
    function inside a Markdown code span, the bare name otherwise. *)
Definition signature (name : jsstring) (params : list jsstring) : jsstring :=
  name ++ lit "(" ++ join (lit ", ") params ++ lit ")".

Definition identifier (name : jsstring) (declaration : option Declaration)
  : Result jsstring :=
  match declaration with
  | Some (FunctionDeclaration _ params) =>
      match mapResult renderParamNode params with
      | Ok rendered => Ok ([BACKTICK] ++ signature name rendered ++ [BACKTICK])
      | Throw e => Throw e
      end
  | _ => Ok name
  end.

(** ** Documentation trees and [renderDocNode] *)

(** A TSDoc node: a [DocExcerpt] carries text, any node has children. *)
Inductive DocNode :=
| DocExcerpt (content : jsstring) (children : list DocNode)
| DocContainer (children : list DocNode).

Fixpoint renderNode (docNode : DocNode) : jsstring :=
  match docNode with
  | DocExcerpt content children => content ++ concat (map renderNode children)
  | DocContainer children => concat (map renderNode children)
  end.

Definition renderDocNode (docNode : option DocNode) : jsstring :=
  match docNode with
  | Some n => renderNode n
  | None => []
  end.

(** ** [Array.prototype.sort] and [sortByCategory] *)

(** A catalog entry [[category, identifier, description]]. *)
Definition Entry := (jsstring * jsstring * jsstring)%type.

Definition category (e : Entry) : jsstring := fst (fst e).   (* e[0] *)
Definition display (e : Entry) : jsstring := snd (fst e).    (* e[1] *)
Definition description (e : Entry) : jsstring := snd e.      (* e[2] *)

Definition sortByCategory (lhs rhs : Entry) : Z :=
  if negb (streq (category lhs) (category rhs)) then
    if strlt (category lhs) (category rhs) then (-1)%Z else 1%Z
  else if streq (display lhs) (display rhs) then 0%Z
  else if strlt (display lhs) (display rhs) then (-1)%Z else 1%Z.

(** [sort] is stable (ECMAScript 2019); for a consistent comparator every
    stable sort returns the same array, here computed by insertion. *)
Fixpoint insertSorted {A} (comparefn : A -> A -> Z) (x : A) (sorted : list A)
  : list A :=
  match sorted with
  | [] => [x]
  | y :: rest =>
      if (comparefn x y <=? 0)%Z then x :: sorted
      else y :: insertSorted comparefn x rest
  end.

Definition sort {A} (comparefn : A -> A -> Z) (xs : list A) : list A :=
  fold_right (insertSorted comparefn) [] xs.

(** ** Regular expressions and [String.prototype.replace] *)

(** The fragment of the pattern language the task uses: runs of pattern
    characters that match themselves, the greedy [[^]+] (one or more code
    units of any kind) and capturing groups. *)
Inductive Regex :=
| PatternChars (cs : jsstring)
| AnyPlus
| Group (parenIndex : nat) (r : Regex)
| Seq (r1 r2 : Regex).

Fixpoint groupCount (r : Regex) : nat :=
  match r with
  | PatternChars _ | AnyPlus => 0
  | Group _ r' => S (groupCount r')
  | Seq r1 r2 => groupCount r1 + groupCount r2
  end.

(** A match state: the index reached, the input left from there on, and the
    captures made so far. *)
Record MatchState := {
  endIndex : nat;
  input : jsstring;
  captures : list (option jsstring)
}.

Definition Continuation := MatchState -> option MatchState.

Fixpoint setCapture (i : nat) (v : jsstring) (caps : list (option jsstring))
  : list (option jsstring) :=
  match caps, i with
  | [], _ => []
  | _ :: caps', O => Some v :: caps'
  | c :: caps', S i' => c :: setCapture i' v caps'
  end.

(** Greedy [[^]+]: after each code unit consumed, first try to consume
    more; only when that fails, hand over to the continuation. *)
Fixpoint anyPlus (e : nat) (s : jsstring) (caps : list (option jsstring))
                 (k : Continuation) : option MatchState :=
  match s with
  | [] => None
  | _ :: s' =>
      match anyPlus (S e) s' caps k with
      | Some y => Some y
      | None => k {| endIndex := S e; input := s'; captures := caps |}
      end
  end.

(** The backtracking matcher, in continuation-passing style. *)
Fixpoint matcher (r : Regex) (x : MatchState) (k : Continuation)
  : option MatchState :=
  match r with
  | PatternChars cs =>
      match stripPrefix cs (input x) with
      | Some s' => k {| endIndex := endIndex x + length cs;
                        input := s';
                        captures := captures x |}
      | None => None
      end
  | AnyPlus => anyPlus (endIndex x) (input x) (captures x) k
  | Group parenIndex r' =>
      matcher r' x
        (fun y =>
           k {| endIndex := endIndex y;
                input := input y;
                captures :=
                  setCapture parenIndex
                    (firstn (endIndex y - endIndex x) (input x))
                    (captures y) |})
  | Seq r1 r2 => matcher r1 x (fun y => matcher r2 y k)
  end.

(** [RegExpBuiltinExec] without the global or sticky flag: the first index,
    from [lastIndex] on, at which the pattern matches. *)
Fixpoint execFrom (r : Regex) (lastIndex : nat) (s : jsstring)
  : option (nat * MatchState) :=
  match matcher r {| endIndex := lastIndex; input := s;
                     captures := repeat None (groupCount r) |} Some with
  | Some y => Some (lastIndex, y)
  | None =>
      match s with
      | [] => None
      | _ :: s' => execFrom r (S lastIndex) s'
      end
  end.

Definition exec (r : Regex) (s : jsstring) : option (nat * MatchState) :=
  execFrom r 0 s.

Definition isDigit (c : N) : bool := N.leb 48 c && N.leb c 57.
Definition digitValue (c : N) : nat := N.to_nat (c - 48).

Definition captureText (caps : list (option jsstring)) (index : nat)
  : jsstring :=
  match nth_error caps (index - 1) with
  | Some (Some text) => text
  | _ => []
  end.

(** [GetSubstitution] for a pattern without named groups: [$$], [$&],
    [$`], [$'], [$n] and [$nn] are expanded, anything else is literal. *)
Fixpoint GetSubstitution (matched str : jsstring) (position : nat)
    (caps : list (option jsstring)) (template : jsstring) : jsstring :=
  match template with
  | [] => []
  | c :: t1 =>
      if negb (N.eqb c DOLLAR) then
        c :: GetSubstitution matched str position caps t1
      else
        match t1 with
        | [] => [DOLLAR]
        | d :: t2 =>
            let oneDigit :=
              if (1 <=? digitValue d) && (digitValue d <=? length caps)
              then captureText caps (digitValue d)
                     ++ GetSubstitution matched str position caps t2
              else DOLLAR :: d
                     :: GetSubstitution matched str position caps t2 in
            if N.eqb d DOLLAR then
              DOLLAR :: GetSubstitution matched str position caps t2
            else if N.eqb d AMPERSAND then
              matched ++ GetSubstitution matched str position caps t2
            else if N.eqb d BACKTICK then
              firstn position str
                ++ GetSubstitution matched str position caps t2
            else if N.eqb d QUOTE then
              skipn (position + length matched) str
                ++ GetSubstitution matched str position caps t2
            else if isDigit d then
              match t2 with
              | d2 :: t3 =>
                  if isDigit d2 then
                    let index := 10 * digitValue d + digitValue d2 in
                    if index <=? length caps then
                      if 1 <=? index then
                        captureText caps index
                          ++ GetSubstitution matched str position caps t3
                      else
                        DOLLAR :: d :: d2
                          :: GetSubstitution matched str position caps t3
                    else oneDigit
                  else oneDigit
              | [] => oneDigit
              end
            else if N.eqb d LESS then
              DOLLAR :: LESS
                :: GetSubstitution matched str position caps t2
            else
              DOLLAR :: GetSubstitution matched str position caps t1
        end
  end.

(** [str.replace(regexp, replaceValue)] with a string [replaceValue] and a
    [regexp] without flags: the first match only. *)
Definition replace (str : jsstring) (regexp : Regex) (replaceValue : jsstring)
  : jsstring :=
  match exec regexp str with
  | None => str
  | Some (position, y) =>
      let matched := firstn (endIndex y - position) (skipn position str) in
      firstn position str
        ++ GetSubstitution matched str position (captures y) replaceValue
        ++ skipn (position + length matched) str
  end.

(** ** The world: file system and console *)

Inductive Event :=
| ReadFile (path : jsstring)
| WriteFile (path data : jsstring)
| Warn (args : list jsstring).

(** [sourceFiles] is what [findSourceFiles()] returns in this world (the
    [include] patterns of tsconfig.json, expanded); [events] is the
    chronological log of what the run did. *)
Record World := {
  sourceFiles : list jsstring;
  fs : jsstring -> option jsstring;
  events : list Event
}.

Definition log (ev : Event) (w : World) : World :=
  {| sourceFiles := sourceFiles w; fs := fs w; events := events w ++ [ev] |}.

(** Computations that read and change the world and may throw; the world
    reached when an exception is thrown is kept. *)
Definition M (A : Type) := World -> Result A * World.

Definition ret {A} (a : A) : M A := fun w => (Ok a, w).

Definition bind {A B} (m : M A) (f : A -> M B) : M B :=
  fun w =>
    match m w with
    | (Ok a, w') => f a w'
    | (Throw e, w') => (Throw e, w')
    end.

Notation "x <- m ;; f" := (bind m (fun x => f))
  (at level 61, m at next level, right associativity).
Notation "m ;;; f" := (bind m (fun _ => f))
  (at level 61, right associativity).

Definition liftResult {A} (r : Result A) : M A := fun w => (r, w).

(** [xs.forEach(f)] where [f] updates an accumulator. *)
Fixpoint forEach {A S} (f : A -> S -> M S) (xs : list A) (acc : S) : M S :=
  match xs with
  | [] => ret acc
  | x :: xs' => acc' <- f x acc ;; forEach f xs' acc'
  end.

Definition readFileSync (path : jsstring) : M jsstring :=
  fun w =>
    match fs w path with
    | Some data => (Ok data, log (ReadFile path) w)
    | None => (Throw (lit "ENOENT: no such file or directory"),
               log (ReadFile path) w)
    end.

Definition writeFileSync (path data : jsstring) : M unit :=
  fun w =>
    (Ok tt,
     {| sourceFiles := sourceFiles w;
        fs := fun p => if streq p path then Some data else fs w p;
        events := events w ++ [WriteFile path data] |}).

Definition consoleWarn (args : list jsstring) : M unit :=
  fun w => (Ok tt, log (Warn args) w).

(** ** The packages the task calls *)

(** [babelParse file content] is
    [babelParser.parse(content, {..., sourceFilename: file}).program.body],
    [tsdocSummary text] is
    [tsdocParser.parseString(text).docComment.summarySection],
    [basename file] is [path.basename(file, ".ts")] and [markdownTable] the
    default export of the markdown-table package. *)
Class Packages := {
  babelParse : jsstring -> jsstring -> Result (list Statement);
  tsdocSummary : jsstring -> DocNode;
  basename : jsstring -> jsstring;
  markdownTable : list (list jsstring) -> jsstring
}.

(** ** [updateReadme] *)

Section Task.

Context {packages : Packages}.

(** An entry as the row (an array of three cells) the table gets. *)
Definition row (e : Entry) : list jsstring :=
  [category e; display e; description e].

Definition TYPES_HEADER : list jsstring :=
  [lit "Category"; lit "Type Name"; lit "Description"].

Definition FUNCTIONS_HEADER : list jsstring :=
  [lit "Category"; lit "Function"; lit "Description"].

(** The rows handed to [markdownTable]: the header, then the entries as
    sorted by [sortByCategory]. *)
Definition tableRows (header : list jsstring) (entries : list Entry)
  : list (list jsstring) :=
  header :: map row (sort sortByCategory entries).

Definition renderTable (header : list jsstring) (entries : list Entry)
  : jsstring :=
  match entries with
  | [] => []
  | _ :: _ => markdownTable (tableRows header entries)
  end.

(** [new RegExp(`${TOKEN_START}([^]+)${TOKEN_END}`)]: no character of the
    two tokens is a syntax character, so each matches itself. *)
Definition apiRegion : Regex :=
  Seq (PatternChars TOKEN_START) (Seq (Group 0 AnyPlus) (PatternChars TOKEN_END)).

Definition nonEmpty (s : jsstring) : bool :=   (* Boolean(s) *)
  match s with [] => false | _ :: _ => true end.

(** The text between the markers, before [replace] expands it. *)
Definition tables (exportedTypes exportedFunctions : list Entry) : jsstring :=
  let types := renderTable TYPES_HEADER exportedTypes in
  let functions := renderTable FUNCTIONS_HEADER exportedFunctions in
  join [LF; LF] (filter nonEmpty [types; functions]).

Definition replacement (exportedTypes exportedFunctions : list Entry)
  : jsstring :=
  TOKEN_START ++ [LF; LF] ++ tables exportedTypes exportedFunctions
    ++ [LF; LF] ++ TOKEN_END.

(** The [updatedReadme] computed from the text [readme]. *)
Definition merge (exportedTypes exportedFunctions : list Entry)
    (readme : jsstring) : jsstring :=
  replace readme apiRegion (replacement exportedTypes exportedFunctions).

Definition updateReadme (exportedTypes exportedFunctions : list Entry)
  : M unit :=
  readme <- readFileSync README ;;
  let updatedReadme := merge exportedTypes exportedFunctions readme in
  if negb (streq updatedReadme readme)
  then writeFileSync README updatedReadme
  else ret tt.

(** ** [updateApiReadme] *)

(** The two arrays the task fills. *)
Record Catalog := {
  exportedFunctions : list Entry;
  exportedTypes : list Entry
}.

Definition emptyCatalog : Catalog :=
  {| exportedFunctions := []; exportedTypes := [] |}.

Definition isEmpty (s : jsstring) : bool :=   (* !s *)
  match s with [] => true | _ :: _ => false end.

Definition undocumented (file ident : jsstring) : list jsstring :=
  [lit "WARN"; file ++ lit ":"; ident ++ lit " is exported but undocumented"].

(** The callback of [program.body.forEach]. *)
Definition visitStatement (file cat : jsstring) (node : Statement)
    (c : Catalog) : M Catalog :=
  match node with
  | OtherStatement _ => ret c
  | ExportNamedDeclaration declaration leadingComments =>
      let name := getExportedName declaration in
      if isEmpty name then ret c
      else
        ident <- liftResult (identifier name declaration) ;;
        match findLastBlockComment leadingComments with
        | None => consoleWarn (undocumented file ident) ;;; ret c
        | Some commentBlock =>
            let result :=
              tsdocSummary (lit "/*" ++ value commentBlock ++ lit "*/") in
            let summary := renderDocNode (Some result) in
            let descr := extractBrief summary in
            if isFunctionDeclaration declaration then
              ret {| exportedFunctions :=
                       exportedFunctions c ++ [(cat, ident, descr)];
                     exportedTypes := exportedTypes c |}
            else
              ret {| exportedFunctions := exportedFunctions c;
                     exportedTypes :=
                       exportedTypes c ++ [(cat, ident, descr)] |}
        end
  end.

(** The callback of [findSourceFiles().forEach]. *)
Definition visitFile (file : jsstring) (c : Catalog) : M Catalog :=
  let cat := basename file in
  content <- readFileSync file ;;
  body <- liftResult (babelParse file content) ;;
  forEach (visitStatement file cat) body c.

(** Lines 188 to 238: the two catalogs are built over all source files. *)
Definition collectExports : M Catalog :=
  fun w => forEach visitFile (sourceFiles w) emptyCatalog w.

Definition updateApiReadme : M unit :=
  c <- collectExports ;;
  updateReadme (exportedTypes c) (exportedFunctions c).

End Task.

(* ================================================================== *)
(** * Part III.  Notions the properties are stated with *)
(* ================================================================== *)

(** [p] occurs in [s] with [n] code units before it. *)
Definition OccursAt (p s : jsstring) (n : nat) : Prop :=
  exists a b, s = a ++ p ++ b /\ length a = n.

Definition noLeadingWhiteSpace (t : jsstring) : Prop :=
  match t with
  | c :: _ => isWhiteSpace c = false
  | [] => True
  end.

(** [t] is [s] without its leading and trailing white space. *)
Definition Trimmed (s t : jsstring) : Prop :=
  exists l r,
    s = l ++ t ++ r
    /\ forallb isWhiteSpace l = true
    /\ forallb isWhiteSpace r = true
    /\ noLeadingWhiteSpace t
    /\ noLeadingWhiteSpace (rev t).

(** [d] is the brief of the text [p]: trimmed, each line feed a space. *)
Definition BriefOf (p d : jsstring) : Prop :=
  exists t, Trimmed p t /\ d = replaceLineFeeds t.

(** Brief extraction as the specification words it: the text before the
    first paragraph break whenever the summary has one. *)
Definition briefAsSpecified (summary : jsstring) : jsstring :=
  let newParagraph := indexOf summary PARAGRAPH_BREAK in
  replaceLineFeeds
    (trim (if (newParagraph >=? 0)%Z
           then substring summary 0 newParagraph
           else summary)).

(** The display string of a parameter, rule by rule. *)
Inductive Renders : LVal -> jsstring -> Prop :=
| Renders_identifier name :
    Renders (Identifier name) name
| Renders_default inner default s :
    Renders inner s -> Renders (AssignmentPattern inner default) s
| Renders_array elements :
    Renders (ArrayPattern elements) (lit "[]")
| Renders_object properties :
    Renders (ObjectPattern properties) (lit "{}")
| Renders_rest inner s :
    Renders inner s -> Renders (RestElement inner) (lit "..." ++ s).

(** The two shapes without a display string. *)
Definition isUnsupported (node : LVal) : bool :=
  match node with
  | MemberExpression _ _ _ | TSParameterProperty _ => true
  | _ => false
  end.

(** The pattern under the default values and rest prefixes of a parameter. *)
Fixpoint innermost (node : LVal) : LVal :=
  match node with
  | AssignmentPattern inner _ => innermost inner
  | RestElement inner => innermost inner
  | _ => node
  end.

(** The order [sortByCategory] decides: by category, then by identifier. *)
Definition keyLt (a b : Entry) : Prop :=
  strlt (category a) (category b) = true
  \/ (category a = category b /\ strlt (display a) (display b) = true).

Definition sameKey (a b : Entry) : Prop :=
  category a = category b /\ display a = display b.

(** [a] may stand before [b]. *)
Definition keyLe (a b : Entry) : Prop := (sortByCategory a b <= 0)%Z.

(** The pairs of a start marker at [i] and an end marker at [j] that begins
    at or after the end of that start marker. *)
Definition markerPairs (doc : jsstring) : list (nat * nat) :=
  filter (fun ij => fst ij + length TOKEN_START <=? snd ij)
    (list_prod (occurrences TOKEN_START doc) (occurrences TOKEN_END doc)).

(** The [WriteFile] events of a log. *)
Definition writesOf (evs : list Event) : list (jsstring * jsstring) :=
  flat_map (fun ev => match ev with
                      | WriteFile p d => [(p, d)]
                      | _ => []
                      end) evs.

(** The [Warn] events of a log. *)
Definition warningsOf (evs : list Event) : list (list jsstring) :=
  flat_map (fun ev => match ev with
                      | Warn args => [args]
                      | _ => []
                      end) evs.

(** The files a log shows as read. *)
Definition readsOf (evs : list Event) : list jsstring :=
  flat_map (fun ev => match ev with
                      | ReadFile p => [p]
                      | _ => []
                      end) evs.

(** Whether the leading comments of a node hold a block comment. *)
Definition hasBlockComment (comments : option (list Comment)) : bool :=
  match comments with
  | Some cs => existsb isCommentBlock cs
  | None => false
  end.

(** [w'] is [w] after some events, each of which satisfies [P]; the files
    are as they were. *)
Definition Extends (P : Event -> Prop) (w w' : World) : Prop :=
  sourceFiles w' = sourceFiles w
  /\ fs w' = fs w
  /\ exists evs, events w' = events w ++ evs /\ Forall P evs.

(** What building the catalogs may do: read source files and warn. *)
Definition scanning (files : list jsstring) (ev : Event) : Prop :=
  match ev with
  | ReadFile p => In p files
  | Warn _ => True
  | WriteFile _ _ => False
  end.

(* ================================================================== *)
(** * Part IV.  Inputs for concrete runs *)
(* ================================================================== *)

(** A table renderer for concrete runs, after the default layout of
    markdown-table: every cell padded on the right to the width of its
    column, cells delimited by [|] with one space of padding, and a row of
    dashes after the first row.  The cells are copied as they are. *)
Module MarkdownTable.

Definition cell (r : list jsstring) (col : nat) : jsstring := nth col r [].

Definition mostCellsPerRow (table : list (list jsstring)) : nat :=
  fold_right (fun r n => Nat.max (length r) n) 0 table.

Definition longestCell (table : list (list jsstring)) (col : nat) : nat :=
  Nat.max 1 (fold_right (fun r n => Nat.max (length (cell r col)) n) 0 table).

Definition line (table : list (list jsstring)) (cells : nat -> jsstring)
  : jsstring :=
  concat
    (map (fun col =>
            (if col =? 0 then lit "|" else [])
              ++ lit " " ++ cells col
              ++ repeat SPACE (longestCell table col - length (cells col))
              ++ lit " |")
         (seq 0 (mostCellsPerRow table))).

Definition dashes (table : list (list jsstring)) (col : nat) : jsstring :=
  repeat 45%N (longestCell table col).

(** The row of dashes is spliced in at index 1. *)
Definition render (table : list (list jsstring)) : jsstring :=
  join [LF]
    (map (line table)
       (map cell (firstn 1 table) ++ dashes table :: map cell (skipn 1 table))).

End MarkdownTable.

(** Packages for running the task on concrete inputs: the reference table
    renderer; a parser that knows the files it is given ([None]: a syntax
    error); a documentation parser that returns the interior of the comment
    as the only excerpt; file names kept as they are. *)
Definition examplePackages
    (parsed : list (jsstring * option (list Statement))) : Packages :=
  {| babelParse := fun file _ =>
       match find (fun p => streq (fst p) file) parsed with
       | Some (_, Some body) => Ok body
       | _ => Throw (lit "SyntaxError")
       end;
     tsdocSummary := fun text =>
       DocContainer
         [DocExcerpt (firstn (length text - 4) (skipn 2 text)) []];
     basename := fun file => file;
     markdownTable := MarkdownTable.render |}.

Definition exampleWorld (files : list (jsstring * jsstring)) (readme : jsstring)
  : World :=
  {| sourceFiles := map fst files;
     fs := fun p =>
       if streq p README then Some readme
       else match find (fun f => streq (fst f) p) files with
            | Some (_, content) => Some content
            | None => None
            end;
     events := [] |}.

Definition priceCatalog : list Entry :=
  [(lit "price", lit "`format(n)`", lit "Formats a price such as $1.50")].

Definition mathCatalog : list Entry :=
  [(lit "math", lit "`add(a, b)`", lit "Adds two numbers.")].

Definition readmeWithRegion : jsstring :=
  lit "# API" ++ [LF] ++ TOKEN_START ++ [LF] ++ lit "old" ++ [LF]
    ++ TOKEN_END ++ [LF] ++ lit "License: MIT".

Definition addDeclaration : option Declaration :=
  Some (FunctionDeclaration (Some (lit "add"))
          [Identifier (lit "a"); Identifier (lit "b")]).

Definition injectDeclaration : option Declaration :=
  Some (FunctionDeclaration (Some (lit "inject"))
          [TSParameterProperty (Identifier (lit "x"))]).

Definition mathFile : jsstring := lit "src/math.ts".
Definition brokenFile : jsstring := lit "src/broken.ts".
Definition injectFile : jsstring := lit "src/inject.ts".

(** src/math.ts: a documented [add]; src/inject.ts: an [inject] with a
    parameter property; src/broken.ts: a syntax error. *)
Definition exampleProgram : list (jsstring * option (list Statement)) :=
  [ (mathFile,
     Some [ExportNamedDeclaration addDeclaration
              (Some [{| type := CommentBlock;
                        value := lit "Adds two numbers." |}])]);
    (injectFile,
     Some [ExportNamedDeclaration injectDeclaration None]);
    (brokenFile, None) ].

Definition exampleSources (files : list jsstring) : World :=
  exampleWorld
    (map (fun f => (f, lit "export function ...")) files)
    readmeWithRegion.

(* ================================================================== *)
(** * Part IV, continued.  The source locator and further notions *)
(* ================================================================== *)

(** ** [findSourceFiles] *)

(** What [findSourceFiles] asks of the disk.  [tsconfigInclude] is the
    [include] member of the tsconfig.json resolved from the working
    directory: [Throw] when the file is not found or does not load, [None]
    when the member is not an array; its elements are taken to be
    strings.  [isDirectory p] is [fs.statSync(p).isDirectory()] and
    [globSync] is [glob.sync]. *)
Class Disk := {
  tsconfigInclude : Result (option (list jsstring));
  existsSync : jsstring -> bool;
  isDirectory : jsstring -> Result bool;
  globSync : jsstring -> Result (list jsstring)
}.

(** [xs.reduce(f, init)] where [f] may throw. *)
Fixpoint reduceResult {A B} (f : B -> A -> Result B) (xs : list A) (acc : B)
  : Result B :=
  match xs with
  | [] => Ok acc
  | x :: xs' =>
      match f acc x with
      | Ok acc' => reduceResult f xs' acc'
      | Throw e => Throw e
      end
  end.

Section Locator.

Context {disk : Disk}.

(** The callback of [include.reduce]. *)
Definition addPattern (result : list jsstring) (pattern : jsstring)
  : Result (list jsstring) :=
  if existsSync pattern then
    match isDirectory pattern with
    | Throw e => Throw e
    | Ok true =>
        match globSync (pattern ++ lit "/**/*.ts") with
        | Ok found => Ok (result ++ found)
        | Throw e => Throw e
        end
    | Ok false => Ok (result ++ [pattern])
    end
  else
    match globSync pattern with
    | Ok found => Ok (result ++ found)
    | Throw e => Throw e
    end.

(** Every exception is caught and answered with the empty list. *)
Definition findSourceFiles : list jsstring :=
  match tsconfigInclude with
  | Ok (Some include) =>
      match reduceResult addPattern include [] with
      | Ok result => result
      | Throw _ => []
      end
  | Ok None => []
  | Throw _ => []
  end.

(** The files one pattern stands for. *)
Definition expandPattern (pattern : jsstring) : Result (list jsstring) :=
  addPattern [] pattern.

End Locator.

(** ** Further notions *)

(** The contents of the excerpts of a documentation tree, in document order
    (a node before its children, the children from first to last). *)
Fixpoint excerpts (docNode : DocNode) : list jsstring :=
  match docNode with
  | DocExcerpt content children => content :: flat_map excerpts children
  | DocContainer children => flat_map excerpts children
  end.

(** The statements the task takes up: named exports of a function, an
    interface or a type alias. *)
Definition isConsidered (node : Statement) : bool :=
  match node with
  | ExportNamedDeclaration declaration _ =>
      negb (isEmpty (getExportedName declaration))
  | OtherStatement _ => false
  end.

Definition entryCount (c : Catalog) : nat :=
  length (exportedFunctions c) + length (exportedTypes c).

(** [e] has the category and the identifier of [k]. *)
Definition sameKeyAs (k e : Entry) : bool :=
  streq (category e) (category k) && streq (display e) (display k).

(** A description as [extractBrief] makes it: one line, no white space at
    either end. *)
Definition isBrief (d : jsstring) : Prop :=
  ~ In LF d /\ noLeadingWhiteSpace d /\ noLeadingWhiteSpace (rev d).

(** An entry as the task pushes it for a source file among [files]: the
    category is the base name of that file, the description is a brief,
    and the identifier is a signature inside a code span for a function,
    the bare name otherwise. *)
Definition entryOf {packages : Packages} (files : list jsstring)
    (function : bool) (e : Entry) : Prop :=
  (exists file, In file files /\ category e = basename file)
  /\ isBrief (description e)
  /\ exists name,
       name <> []
       /\ if function
          then exists rendered,
                 display e = [BACKTICK] ++ signature name rendered ++ [BACKTICK]
          else display e = name.

(** The body [babelParse] answers for a source file of the world. *)
Definition parsedAs {packages : Packages} (w : World) (file : jsstring)
    (body : list Statement) : Prop :=
  exists content, fs w file = Some content /\ babelParse file content = Ok body.

(** ** Further inputs for concrete runs *)

(** A working directory with a file a.ts, a directory src holding
    src/b.ts and src/c.ts, and no other TypeScript file; on the pattern
    "{" this disk has [glob.sync] throw. *)
Definition exampleDisk (include : Result (option (list jsstring))) : Disk :=
  {| tsconfigInclude := include;
     existsSync := fun p => streq p (lit "a.ts") || streq p (lit "src");
     isDirectory := fun p => Ok (streq p (lit "src"));
     globSync := fun p =>
       if streq p (lit "src/**/*.ts")
       then Ok [lit "src/b.ts"; lit "src/c.ts"]
       else if streq p (lit "{") then Throw (lit "TypeError")
       else Ok [] |}.

Definition twoRegions : jsstring :=
  lit "# API" ++ [LF] ++ TOKEN_START ++ lit "one" ++ TOKEN_END
    ++ lit " and " ++ TOKEN_START ++ lit "two" ++ TOKEN_END ++ [LF].

Definition nestedSummary : DocNode :=
  DocContainer
    [ DocContainer [DocExcerpt (lit "Adds ") []; DocExcerpt (lit "two") []];
      DocContainer [];
      DocExcerpt (lit " numbers.") [DocExcerpt [LF] []] ].

(* ================================================================== *)
(** * Part V.  Properties *)
(* ================================================================== *)

Unset Implicit Arguments.

(** ** Strings *)

Lemma streq_eq (x y : jsstring) : streq x y = true <-> x = y.
Proof.
  revert y; induction x as [|a x IH]; intros [|b y]; simpl;
    try (split; (discriminate || reflexivity)).
  rewrite andb_true_iff, N.eqb_eq, IH.
  split; [intros [-> ->]; reflexivity | intros H; inversion H; auto].
Qed.

Lemma streq_refl (x : jsstring) : streq x x = true.
Proof. apply streq_eq; reflexivity. Qed.

Lemma streq_neq (x y : jsstring) : streq x y = false <-> x <> y.
Proof.
  rewrite <- streq_eq. destruct (streq x y); split; congruence.
Qed.

Lemma stripPrefix_Some (p s r : jsstring) :
  stripPrefix p s = Some r <-> s = p ++ r.
Proof.
  revert s; induction p as [|a p IH]; intros s; simpl.
  - split; congruence.
  - destruct s as [|b s]; [split; discriminate|].
    destruct (N.eqb_spec a b) as [->|Hne].
    + rewrite IH. split; [intros ->; reflexivity | intros H; inversion H; auto].
    + split; [discriminate | intros H; inversion H; congruence].
Qed.

Lemma stripPrefix_app (p r : jsstring) : stripPrefix p (p ++ r) = Some r.
Proof. apply stripPrefix_Some; reflexivity. Qed.

Lemma startsWith_true (p s : jsstring) :
  startsWith p s = true <-> exists r, s = p ++ r.
Proof.
  unfold startsWith. destruct (stripPrefix p s) as [r|] eqn:E.
  - apply stripPrefix_Some in E. split; eauto.
  - split; [discriminate|]. intros [r Hr].
    apply stripPrefix_Some in Hr. congruence.
Qed.

Lemma startsWith_false (p s : jsstring) :
  startsWith p s = false <-> stripPrefix p s = None.
Proof. unfold startsWith; destruct (stripPrefix p s); split; congruence. Qed.

Lemma skipn_app_exact {A} (a b : list A) : skipn (length a) (a ++ b) = b.
Proof. induction a; simpl; auto. Qed.

Lemma firstn_app_exact {A} (a b : list A) : firstn (length a) (a ++ b) = a.
Proof. induction a; simpl; congruence. Qed.

(** The boolean test and the decomposition agree. *)
Lemma occursAt_iff (p s : jsstring) (n : nat) :
  occursAt p s n = true <-> OccursAt p s n.
Proof.
  unfold occursAt, OccursAt. rewrite andb_true_iff, Nat.leb_le, startsWith_true.
  split.
  - intros [Hle [r Hr]]. exists (firstn n s), r. split.
    + rewrite <- Hr. symmetry; apply firstn_skipn.
    + apply firstn_length_le; assumption.
  - intros (a & b & -> & <-). split.
    + rewrite length_app; lia.
    + exists b. apply skipn_app_exact.
Qed.

Lemma In_occurrences (p s : jsstring) (n : nat) :
  In n (occurrences p s) <-> OccursAt p s n.
Proof.
  unfold occurrences. rewrite filter_In, in_seq, occursAt_iff.
  split; [tauto|]. intros H; split; [|assumption].
  destruct H as (a & b & -> & <-). rewrite length_app; lia.
Qed.

(** [indexOf]: the least position of an occurrence, or -1. *)
Lemma indexOfFrom_spec (needle hay : jsstring) (pos : nat) :
  (indexOfFrom needle hay pos = (-1)%Z
   /\ forall n, ~ OccursAt needle hay n)
  \/ (exists n,
        indexOfFrom needle hay pos = Z.of_nat (pos + n)
        /\ OccursAt needle hay n
        /\ forall m, OccursAt needle hay m -> n <= m).
Proof.
  revert pos; induction hay as [|c hay IH]; intros pos; simpl.
  - destruct (startsWith needle []) eqn:E.
    + right. exists 0. rewrite Nat.add_0_r. split; [reflexivity|]. split; [|lia].
      apply startsWith_true in E. destruct E as [r Hr].
      exists [], r. auto.
    + left. split; [reflexivity|]. intros n (a & b & Hab & _).
      destruct a; [|discriminate]. simpl in Hab.
      assert (startsWith needle [] = true) by (apply startsWith_true; eauto).
      congruence.
  - destruct (startsWith needle (c :: hay)) eqn:E.
    + right. exists 0. rewrite Nat.add_0_r. split; [reflexivity|]. split; [|lia].
      apply startsWith_true in E. destruct E as [r Hr].
      exists [], r. auto.
    + assert (Hstep : forall m, OccursAt needle (c :: hay) m ->
                       exists m', m = S m' /\ OccursAt needle hay m').
      { intros m (a & b & Hab & Hlen). destruct a as [|c' a].
        - simpl in Hab.
          assert (startsWith needle (c :: hay) = true)
            by (apply startsWith_true; eauto).
          congruence.
        - simpl in *. inversion Hab; subst. exists (length a).
          split; [reflexivity|]. exists a, b. auto. }
      destruct (IH (S pos)) as [[Hi Hno] | (n & Hi & Hocc & Hmin)].
      * left. split; [assumption|]. intros m Hm.
        destruct (Hstep m Hm) as (m' & _ & Hm'). exact (Hno m' Hm').
      * right. exists (S n). split; [rewrite Hi; f_equal; lia|]. split.
        -- destruct Hocc as (a & b & -> & <-). exists (c :: a), b. auto.
        -- intros m Hm. destruct (Hstep m Hm) as (m' & -> & Hm').
           apply Hmin in Hm'. lia.
Qed.

Lemma substring_prefix (s : jsstring) (n : nat) :
  n <= length s -> substring s 0 (Z.of_nat n) = firstn n s.
Proof.
  intros Hn. unfold substring.
  replace (Z.min (Z.max 0 0) (Z.of_nat (length s))) with 0%Z by lia.
  replace (Z.min (Z.max (Z.of_nat n) 0) (Z.of_nat (length s)))
    with (Z.of_nat n) by lia.
  replace (Z.to_nat (Z.min 0 (Z.of_nat n))) with 0 by lia.
  replace (Z.to_nat (Z.max 0 (Z.of_nat n))) with n by lia.
  simpl. rewrite Nat.sub_0_r. reflexivity.
Qed.

(** ** [trim] *)

Lemma trimStart_split (s : jsstring) :
  exists l, s = l ++ trimStart s /\ forallb isWhiteSpace l = true.
Proof.
  induction s as [|c s (l & Hl & Hws)]; simpl.
  - exists []. auto.
  - destruct (isWhiteSpace c) eqn:E.
    + exists (c :: l). simpl. rewrite E, Hws. split; [congruence|reflexivity].
    + exists []. auto.
Qed.

Lemma trimStart_head (s : jsstring) : noLeadingWhiteSpace (trimStart s).
Proof.
  induction s as [|c s IH]; simpl; [exact I|].
  destruct (isWhiteSpace c) eqn:E; [assumption | exact E].
Qed.

Lemma forallb_rev {A} (f : A -> bool) (l : list A) :
  forallb f (rev l) = forallb f l.
Proof.
  induction l as [|a l IH]; simpl; [reflexivity|].
  rewrite forallb_app, IH. simpl. rewrite andb_true_r. apply andb_comm.
Qed.

Lemma trimEnd_split (s : jsstring) :
  exists r, s = trimEnd s ++ r /\ forallb isWhiteSpace r = true.
Proof.
  unfold trimEnd. destruct (trimStart_split (rev s)) as (l & Hl & Hws).
  exists (rev l). split.
  - rewrite <- rev_app_distr, <- Hl, rev_involutive. reflexivity.
  - rewrite forallb_rev. assumption.
Qed.

Lemma trimEnd_last (s : jsstring) : noLeadingWhiteSpace (rev (trimEnd s)).
Proof. unfold trimEnd. rewrite rev_involutive. apply trimStart_head. Qed.

Lemma trimEnd_head (s : jsstring) :
  noLeadingWhiteSpace s -> noLeadingWhiteSpace (trimEnd s).
Proof.
  intros H. destruct (trimEnd_split s) as (r & Hr & _).
  destruct (trimEnd s) as [|c t]; [exact I|].
  rewrite Hr in H. exact H.
Qed.

Lemma trim_Trimmed (s : jsstring) : Trimmed s (trim s).
Proof.
  unfold trim.
  destruct (trimStart_split s) as (l & Hl & Hwl).
  destruct (trimEnd_split (trimStart s)) as (r & Hr & Hwr).
  exists l, r. repeat split; try assumption.
  - rewrite <- Hr. exact Hl.
  - apply trimEnd_head, trimStart_head.
  - apply trimEnd_last.
Qed.

(** What [trim] returns is determined by [Trimmed]. *)
Lemma Trimmed_unique (s t t' : jsstring) :
  Trimmed s t -> Trimmed s t' -> t <> [] -> t' <> [] -> t = t'.
Proof.
  intros (l & r & Hs & Hl & Hr & Hh & Hlast)
         (l' & r' & Hs' & Hl' & Hr' & Hh' & Hlast') Hne Hne'.
  assert (Hpre : forall (l l' t t' r r' : jsstring),
             l ++ t ++ r = l' ++ t' ++ r' ->
             forallb isWhiteSpace l = true ->
             forallb isWhiteSpace l' = true ->
             noLeadingWhiteSpace t -> noLeadingWhiteSpace t' ->
             t <> [] -> t' <> [] -> l = l').
  { clear. induction l as [|c l IH]; intros [|c' l'] t t' r r' E Hl Hl' Hh Hh' Hn Hn'.
    - reflexivity.
    - simpl in *. destruct t as [|d t]; [congruence|].
      simpl in *. inversion E; subst.
      apply andb_true_iff in Hl'. destruct Hl'. congruence.
    - simpl in *. destruct t' as [|d t']; [congruence|].
      simpl in *. inversion E; subst.
      apply andb_true_iff in Hl. destruct Hl. congruence.
    - simpl in *. inversion E; subst.
      apply andb_true_iff in Hl, Hl'. f_equal.
      eapply IH; try eassumption; tauto. }
  assert (El : l = l').
  { apply Hpre with (t := t) (t' := t') (r := r) (r' := r');
      try assumption. congruence. }
  assert (Er : rev r = rev r').
  { apply Hpre with (t := rev t) (t' := rev t') (r := rev l) (r' := rev l').
    - rewrite <- !rev_app_distr, <- !app_assoc. congruence.
    - rewrite forallb_rev; assumption.
    - rewrite forallb_rev; assumption.
    - assumption.
    - assumption.
    - intros E. apply Hne. rewrite <- (rev_involutive t), E. reflexivity.
    - intros E. apply Hne'. rewrite <- (rev_involutive t'), E. reflexivity. }
  assert (Er' : r = r').
  { rewrite <- (rev_involutive r), Er, rev_involutive. reflexivity. }
  subst l' r'. rewrite Hs in Hs'.
  apply app_inv_head in Hs'. apply app_inv_tail in Hs'. exact Hs'.
Qed.

(** ** [extractBrief] *)

Lemma BriefOf_trim (p : jsstring) : BriefOf p (replaceLineFeeds (trim p)).
Proof. exists (trim p). split; [apply trim_Trimmed | reflexivity]. Qed.

Lemma extractBrief_whole (summary : jsstring) :
  (indexOf summary PARAGRAPH_BREAK <= 0)%Z ->
  extractBrief summary = replaceLineFeeds (trim summary).
Proof.
  intros H. unfold extractBrief.
  destruct (Z.gtb_spec (indexOf summary PARAGRAPH_BREAK) 0); [lia | reflexivity].
Qed.

Lemma extractBrief_prefix (summary a b : jsstring) :
  summary = a ++ PARAGRAPH_BREAK ++ b ->
  a <> [] ->
  (forall n, OccursAt PARAGRAPH_BREAK summary n -> length a <= n) ->
  extractBrief summary = replaceLineFeeds (trim a).
Proof.
  intros Hs Ha Hmin. unfold extractBrief, indexOf.
  assert (Hocc : OccursAt PARAGRAPH_BREAK summary (length a))
    by (exists a, b; auto).
  destruct (indexOfFrom_spec PARAGRAPH_BREAK summary 0)
    as [[_ Hno] | (n & Hi & Hn & Hleast)].
  - exfalso. exact (Hno _ Hocc).
  - assert (n = length a) by (apply Hmin in Hn; apply Hleast in Hocc; lia).
    subst n. rewrite Hi. simpl (0 + _).
    assert (0 < length a) by (destruct a; [congruence | simpl; lia]).
    destruct (Z.gtb_spec (Z.of_nat (length a)) 0); [|lia].
    rewrite substring_prefix by (rewrite Hs, length_app; lia).
    rewrite Hs, firstn_app_exact. reflexivity.
Qed.

(** C2, as the code has it.  When the summary has a paragraph break (two
    line feeds in a row) and the first one is not at the very start, the
    description is the brief of the text before that break; when it has no
    paragraph break, or begins with one, the description is the brief of
    the whole summary.  The brief of a text is the text without leading and
    trailing white space, each line feed replaced by one space.  The two
    summaries of the specification give "First line." and
    "Single line only.". *)
Theorem extractBrief_first_paragraph :
  (forall summary : jsstring,
      (forall a b,
          summary = a ++ PARAGRAPH_BREAK ++ b ->
          a <> [] ->
          (forall n, OccursAt PARAGRAPH_BREAK summary n -> length a <= n) ->
          BriefOf a (extractBrief summary))
      /\ ((forall n, ~ OccursAt PARAGRAPH_BREAK summary n) ->
          BriefOf summary (extractBrief summary))
      /\ (OccursAt PARAGRAPH_BREAK summary 0 ->
          BriefOf summary (extractBrief summary)))
  /\ extractBrief
       (lit "First line." ++ PARAGRAPH_BREAK ++ lit "Second paragraph.")
     = lit "First line."
  /\ extractBrief (lit "Single line only.") = lit "Single line only.".
Proof.
  split; [|split; reflexivity].
  intros summary. split; [|split].
  - intros a b Hs Ha Hmin.
    rewrite (extractBrief_prefix _ _ _ Hs Ha Hmin). apply BriefOf_trim.
  - intros Hno. rewrite extractBrief_whole; [apply BriefOf_trim|].
    unfold indexOf.
    destruct (indexOfFrom_spec PARAGRAPH_BREAK summary 0)
      as [[-> _] | (n & _ & Hn & _)]; [lia|].
    exfalso. exact (Hno _ Hn).
  - intros H0. rewrite extractBrief_whole; [apply BriefOf_trim|].
    unfold indexOf.
    destruct (indexOfFrom_spec PARAGRAPH_BREAK summary 0)
      as [[-> _] | (n & -> & _ & Hleast)]; [lia|].
    apply Hleast in H0. lia.
Qed.

(** The first case of [extractBrief_first_paragraph] at the summary
    "  First" LF "line.  " LF LF "Second paragraph.". *)
Lemma extractBrief_first_paragraph_witness :
  BriefOf (lit "  First" ++ [LF] ++ lit "line.  ")
    (extractBrief
       (lit "  First" ++ [LF] ++ lit "line.  "
          ++ PARAGRAPH_BREAK ++ lit "Second paragraph.")).
Proof.
  apply (proj1 (proj1 extractBrief_first_paragraph _))
    with (a := lit "  First" ++ [LF] ++ lit "line.  ")
         (b := lit "Second paragraph.").
  - reflexivity.
  - discriminate.
  - intros n Hn. apply In_occurrences in Hn. vm_compute in Hn.
    destruct Hn as [<- | []]. vm_compute. lia.
Defined.

(** C2 as the specification words it fails on a summary that begins with a
    paragraph break: the text before the break is empty, and so would be
    the description, but the code keeps the whole summary. *)
Lemma extractBrief_leading_break :
  let summary := PARAGRAPH_BREAK ++ lit "Second paragraph." in
  indexOf summary PARAGRAPH_BREAK = 0%Z
  /\ briefAsSpecified summary = []
  /\ extractBrief summary = lit "Second paragraph."
  /\ extractBrief summary <> briefAsSpecified summary.
Proof. repeat split; try reflexivity. discriminate. Qed.

(** ** [renderParamNode] and the display signature *)

Lemma renderParamNode_Renders (node : LVal) (s : jsstring) :
  renderParamNode node = Ok s <-> Renders node s.
Proof.
  split.
  - revert s. induction node; simpl; intros s H; try discriminate.
    + inversion H; constructor.
    + constructor. auto.
    + inversion H; constructor.
    + inversion H; constructor.
    + destruct (renderParamNode node) as [t|e]; inversion H; subst.
      constructor. auto.
  - induction 1; simpl; try reflexivity; try assumption.
    rewrite IHRenders. reflexivity.
Qed.

Lemma mapResult_Forall2 {A B} (f : A -> Result B) (R : A -> B -> Prop) :
  (forall x y, f x = Ok y <-> R x y) ->
  forall xs ys, mapResult f xs = Ok ys <-> Forall2 R xs ys.
Proof.
  intros Hf. induction xs as [|x xs IH]; intros ys; simpl.
  - split; [intros H; inversion H; constructor | intros H; inversion H; auto].
  - split.
    + destruct (f x) as [y|e] eqn:Ex; [|discriminate].
      destruct (mapResult f xs) as [ys'|e] eqn:Exs; [|discriminate].
      intros H; inversion H; subst. constructor; [apply Hf | apply IH]; auto.
    + intros H; inversion H as [|? y ? ys' Hxy Hrest]; subst.
      apply Hf in Hxy. apply IH in Hrest. rewrite Hxy, Hrest. reflexivity.
Qed.

(** C4.  For an exported function declaration the display identifier is
    the signature name(p1, p2, ...) inside a Markdown code span (one
    backtick on each side), exactly when every parameter has a display
    string by the rules: an identifier displays as its name, a
    default-valued parameter as the pattern under the default value, an
    array pattern as [], an object pattern as {}, a rest parameter as ...
    followed by the display of its inner pattern.  The function
    f(a, [b, c] = [], ...rest) displays as f(a, [], ...rest). *)
Theorem identifier_signature :
  (forall node s, renderParamNode node = Ok s <-> Renders node s)
  /\ (forall name params shown,
         let declaration := Some (FunctionDeclaration (Some name) params) in
         identifier (getExportedName declaration) declaration = Ok shown
         <-> exists rendered,
               Forall2 Renders params rendered
               /\ shown = [BACKTICK]
                            ++ name ++ lit "(" ++ join (lit ", ") rendered
                            ++ lit ")" ++ [BACKTICK])
  /\ (let declaration :=
        Some (FunctionDeclaration (Some (lit "f"))
                [ Identifier (lit "a");
                  AssignmentPattern
                    (ArrayPattern [Some (Identifier (lit "b"));
                                   Some (Identifier (lit "c"))])
                    (ArrayExpression []);
                  RestElement (Identifier (lit "rest")) ]) in
      identifier (getExportedName declaration) declaration
      = Ok (lit "`f(a, [], ...rest)`")).
Proof.
  split; [exact renderParamNode_Renders|]. split; [|reflexivity].
  intros name params shown declaration. subst declaration.
  change (getExportedName (Some (FunctionDeclaration (Some name) params)))
    with name.
  unfold identifier.
  assert (Hsig : forall r,
             [BACKTICK] ++ signature name r ++ [BACKTICK]
             = [BACKTICK] ++ name ++ lit "(" ++ join (lit ", ") r
                 ++ lit ")" ++ [BACKTICK]).
  { intros r. unfold signature. rewrite <- !app_assoc. reflexivity. }
  destruct (mapResult renderParamNode params) as [rendered|e] eqn:E.
  - apply (mapResult_Forall2 _ _ renderParamNode_Renders) in E. split.
    + intros H. injection H as <-. exists rendered. split; [assumption|].
      apply Hsig.
    + intros (rendered' & Hall & ->).
      apply (mapResult_Forall2 _ _ renderParamNode_Renders) in E, Hall.
      assert (rendered' = rendered) by congruence. subst.
      rewrite Hsig. reflexivity.
  - split; [discriminate|]. intros (rendered & Hall & _).
    apply (mapResult_Forall2 _ _ renderParamNode_Renders) in Hall. congruence.
Qed.

Lemma renderParamNode_throws (node : LVal) :
  isThrow (renderParamNode node) = isUnsupported (innermost node).
Proof.
  induction node; simpl; try reflexivity; try assumption.
  destruct (renderParamNode node); simpl in *; assumption.
Qed.

(** C5, as the code has it.  Rendering a parameter raises exactly when the
    pattern under its default values and rest prefixes is a
    member-expression or a TSParameterProperty.  These two shapes always
    raise "Unsupported parameter type: " followed by the node type;
    identifiers, array patterns and object patterns never raise; a
    default-valued or rest parameter raises exactly when its inner pattern
    does. *)
Theorem renderParamNode_raises (node : LVal) :
  (isThrow (renderParamNode node) = true
   <-> isUnsupported (innermost node) = true)
  /\ (isUnsupported node = true ->
      renderParamNode node = Throw (unsupportedParameter node))
  /\ match node with
     | Identifier _ | ArrayPattern _ | ObjectPattern _ =>
         isThrow (renderParamNode node) = false
     | AssignmentPattern inner _ | RestElement inner =>
         isThrow (renderParamNode node) = isThrow (renderParamNode inner)
     | MemberExpression _ _ _ | TSParameterProperty _ =>
         isThrow (renderParamNode node) = true
     end.
Proof.
  split; [rewrite renderParamNode_throws; tauto|]. split.
  - destruct node; simpl; intros H; try discriminate; reflexivity.
  - destruct node; simpl; try reflexivity.
    destruct (renderParamNode node); reflexivity.
Qed.

(** [renderParamNode_raises] at the parameter [private x]. *)
Lemma renderParamNode_raises_witness :
  renderParamNode (TSParameterProperty (Identifier (lit "x")))
  = Throw (lit "Unsupported parameter type: TSParameterProperty").
Proof.
  apply (proj1 (proj2 (renderParamNode_raises
                         (TSParameterProperty (Identifier (lit "x")))))).
  reflexivity.
Defined.

(** C5 as the specification words it fails on a rest parameter over a
    member expression: the parameter is one of the five supported shapes,
    and rendering it raises. *)
Lemma renderParamNode_rest_of_member :
  let node :=
    RestElement
      (MemberExpression (OtherExpression (lit "a"))
                        (OtherExpression (lit "b")) false) in
  isUnsupported node = false
  /\ renderParamNode node
     = Throw (lit "Unsupported parameter type: MemberExpression")
  /\ ~ (forall p, isThrow (renderParamNode p) = true
                  <-> isUnsupported p = true).
Proof.
  split; [reflexivity|]. split; [reflexivity|].
  intros H.
  specialize (H (RestElement
                   (MemberExpression (OtherExpression (lit "a"))
                                     (OtherExpression (lit "b")) false))).
  simpl in H. destruct H as [H _]. specialize (H eq_refl). discriminate.
Qed.

(** ** String order, [sortByCategory] and [sort] *)

Lemma strlt_irrefl (x : jsstring) : strlt x x = false.
Proof.
  induction x as [|a x IH]; simpl; [reflexivity|].
  rewrite N.ltb_irrefl. assumption.
Qed.

Lemma strlt_trichotomy (x y : jsstring) :
  strlt x y = false -> strlt y x = false -> x = y.
Proof.
  revert y; induction x as [|a x IH]; intros [|b y]; simpl;
    try discriminate; try reflexivity.
  destruct (N.ltb_spec a b); [discriminate|].
  destruct (N.ltb_spec b a); [discriminate|].
  intros H1 H2. assert (a = b) by lia. subst. f_equal. auto.
Qed.

Lemma strlt_asym (x y : jsstring) : strlt x y = true -> strlt y x = false.
Proof.
  revert y; induction x as [|a x IH]; intros [|b y]; simpl;
    try discriminate; try reflexivity.
  destruct (N.ltb_spec a b), (N.ltb_spec b a); try lia;
    try discriminate; auto.
Qed.

Lemma strlt_trans (x y z : jsstring) :
  strlt x y = true -> strlt y z = true -> strlt x z = true.
Proof.
  revert y z; induction x as [|a x IH]; intros [|b y] [|c z]; simpl;
    try discriminate; try reflexivity.
  destruct (N.ltb_spec a b), (N.ltb_spec b a), (N.ltb_spec b c),
    (N.ltb_spec c b), (N.ltb_spec a c), (N.ltb_spec c a);
    try lia; try discriminate; try reflexivity.
  apply IH.
Qed.

Lemma sortByCategory_spec (a b : Entry) :
  (sortByCategory a b = (-1)%Z /\ keyLt a b)
  \/ (sortByCategory a b = 0%Z /\ sameKey a b)
  \/ (sortByCategory a b = 1%Z /\ keyLt b a).
Proof.
  unfold sortByCategory, keyLt, sameKey.
  destruct (streq (category a) (category b)) eqn:Ec; simpl.
  - apply streq_eq in Ec.
    destruct (streq (display a) (display b)) eqn:Ed.
    + apply streq_eq in Ed. right; left. auto.
    + apply streq_neq in Ed.
      destruct (strlt (display a) (display b)) eqn:El.
      * left. auto.
      * right; right. split; [reflexivity|]. right. split; [congruence|].
        destruct (strlt (display b) (display a)) eqn:El'; [reflexivity|].
        exfalso. apply Ed. apply strlt_trichotomy; assumption.
  - apply streq_neq in Ec.
    destruct (strlt (category a) (category b)) eqn:El.
    + left. auto.
    + right; right. split; [reflexivity|]. left.
      destruct (strlt (category b) (category a)) eqn:El'; [reflexivity|].
      exfalso. apply Ec. apply strlt_trichotomy; assumption.
Qed.

Lemma keyLt_irrefl (a b : Entry) : keyLt a b -> sameKey a b -> False.
Proof.
  intros [H | [_ H]] [Hc Hd].
  - rewrite Hc, strlt_irrefl in H. discriminate.
  - rewrite Hd, strlt_irrefl in H. discriminate.
Qed.

Lemma keyLt_asym (a b : Entry) : keyLt a b -> keyLt b a -> False.
Proof.
  intros [H | [Hc H]] [H' | [Hc' H']].
  - apply strlt_asym in H. congruence.
  - rewrite Hc', strlt_irrefl in H. discriminate.
  - rewrite Hc, strlt_irrefl in H'. discriminate.
  - apply strlt_asym in H. congruence.
Qed.

Lemma keyLt_trans (a b c : Entry) : keyLt a b -> keyLt b c -> keyLt a c.
Proof.
  unfold keyLt. intros [H | [Hc H]] [H' | [Hc' H']].
  - left. eapply strlt_trans; eassumption.
  - left. congruence.
  - left. congruence.
  - right. split; [congruence|]. eapply strlt_trans; eassumption.
Qed.

Lemma keyLe_iff (a b : Entry) : keyLe a b <-> keyLt a b \/ sameKey a b.
Proof.
  unfold keyLe.
  destruct (sortByCategory_spec a b) as [[-> H] | [[-> H] | [-> H]]].
  - split; [auto | lia].
  - split; [auto | lia].
  - split; [lia|]. intros [H' | H'].
    + exfalso. eapply keyLt_asym; eassumption.
    + exfalso. destruct H'. eapply keyLt_irrefl; [eassumption|]. split; auto.
Qed.

Lemma keyLe_total (a b : Entry) : keyLe a b \/ keyLe b a.
Proof.
  rewrite !keyLe_iff.
  destruct (sortByCategory_spec a b) as [[_ H] | [[_ H] | [_ H]]]; auto.
Qed.

Lemma keyLe_trans (a b c : Entry) : keyLe a b -> keyLe b c -> keyLe a c.
Proof.
  rewrite !keyLe_iff. unfold sameKey.
  intros [H | [Hc Hd]] [H' | [Hc' Hd']].
  - left. eapply keyLt_trans; eassumption.
  - left. destruct H as [H | [E H]]; [left | right; split]; congruence.
  - left. destruct H' as [H' | [E H']]; [left | right; split]; congruence.
  - right. split; congruence.
Qed.

Lemma keyLt_not_keyLe (a b : Entry) : keyLt a b -> ~ keyLe b a.
Proof.
  intros H Hle. apply keyLe_iff in Hle. destruct Hle as [H' | [Hc Hd]].
  - eapply keyLt_asym; eassumption.
  - eapply keyLt_irrefl; [eassumption|]. split; auto.
Qed.

Lemma insertSorted_In {A} (cmp : A -> A -> Z) (x y : A) (l : list A) :
  In y (insertSorted cmp x l) <-> y = x \/ In y l.
Proof.
  induction l as [|z l IH]; simpl.
  - intuition.
  - destruct (cmp x z <=? 0)%Z; simpl; [intuition|].
    rewrite IH. intuition.
Qed.

Lemma insertSorted_Permutation {A} (cmp : A -> A -> Z) (x : A) (l : list A) :
  Permutation (insertSorted cmp x l) (x :: l).
Proof.
  induction l as [|z l IH]; simpl; [apply Permutation_refl|].
  destruct (cmp x z <=? 0)%Z; [apply Permutation_refl|].
  eapply perm_trans; [apply perm_skip, IH | apply perm_swap].
Qed.

(** The sorted array holds the entries of the catalog, each as often as the
    catalog does. *)
Lemma sort_Permutation {A} (cmp : A -> A -> Z) (l : list A) :
  Permutation (sort cmp l) l.
Proof.
  induction l as [|x l IH]; simpl; [constructor|].
  eapply perm_trans; [apply insertSorted_Permutation|].
  apply perm_skip, IH.
Qed.

Lemma insertSorted_sorted (x : Entry) (l : list Entry) :
  StronglySorted keyLe l ->
  StronglySorted keyLe (insertSorted sortByCategory x l).
Proof.
  induction 1 as [|z l Hl IH Hz]; simpl.
  - repeat constructor.
  - destruct (Z.leb_spec (sortByCategory x z) 0) as [Hle | Hgt].
    + constructor; [constructor; assumption|].
      constructor; [exact Hle|].
      rewrite Forall_forall in *. intros y Hy.
      eapply keyLe_trans; [exact Hle | auto].
    + constructor; [assumption|].
      rewrite Forall_forall in *. intros y Hy.
      apply insertSorted_In in Hy. destruct Hy as [-> | Hy]; [|auto].
      destruct (keyLe_total z x) as [H | H]; [assumption|].
      unfold keyLe in H. lia.
Qed.

Lemma sort_sorted (l : list Entry) :
  StronglySorted keyLe (sort sortByCategory l).
Proof.
  induction l as [|x l IH]; simpl; [constructor|].
  apply insertSorted_sorted, IH.
Qed.

Lemma StronglySorted_nth {A} (R : A -> A -> Prop) (l : list A) :
  StronglySorted R l ->
  forall i j a b,
    i < j -> nth_error l i = Some a -> nth_error l j = Some b -> R a b.
Proof.
  induction 1 as [|x l Hl IH Hx]; intros i j a b Hij Hi Hj.
  - destruct i; discriminate.
  - destruct j as [|j]; [lia|]. simpl in Hj.
    destruct i as [|i]; simpl in Hi.
    + injection Hi as <-. rewrite Forall_forall in Hx.
      apply Hx. eapply nth_error_In; eassumption.
    + eapply IH with (i := i) (j := j); try eassumption. lia.
Qed.

(** A strictly smaller entry stands at a smaller index. *)
Lemma sort_keyLt_before (entries : list Entry) (i j : nat) (a b : Entry) :
  nth_error (sort sortByCategory entries) i = Some a ->
  nth_error (sort sortByCategory entries) j = Some b ->
  keyLt a b -> i < j.
Proof.
  intros Hi Hj Hlt.
  destruct (Nat.lt_trichotomy i j) as [H | [H | H]]; [assumption | |].
  - exfalso. subst j. rewrite Hi in Hj. injection Hj as <-.
    eapply keyLt_asym; eassumption.
  - exfalso. apply (keyLt_not_keyLe _ _ Hlt).
    eapply (StronglySorted_nth _ _ (sort_sorted entries)); eassumption.
Qed.

Lemma row_inj (a b : Entry) : row a = row b -> a = b.
Proof.
  destruct a as [[c i] d], b as [[c' i'] d'].
  unfold row, category, display, description; simpl.
  intros H; injection H; intros; subst; reflexivity.
Qed.

Lemma tableRows_nth (header : list jsstring) (entries : list Entry)
    (i : nat) (a : Entry) :
  nth_error (tableRows header entries) (S i) = Some (row a) ->
  nth_error (sort sortByCategory entries) i = Some a.
Proof.
  unfold tableRows. simpl. rewrite nth_error_map.
  destruct (nth_error (sort sortByCategory entries) i) as [a'|];
    simpl; [|discriminate].
  intros H. f_equal. apply row_inj. congruence.
Qed.

(** C3.  Of two entries in the rows of a table (row 0 being the header),
    when the categories differ the one whose category is smaller in the
    code-unit order of the raw strings stands in the earlier row; when the
    categories are equal the one whose identifier is smaller stands in the
    earlier row. *)
Theorem tableRows_sorted (header : list jsstring) (entries : list Entry)
    (i j : nat) (a b : Entry) :
  nth_error (tableRows header entries) (S i) = Some (row a) ->
  nth_error (tableRows header entries) (S j) = Some (row b) ->
  (category a <> category b ->
   strlt (category a) (category b) = true -> i < j)
  /\ (category a = category b ->
      strlt (display a) (display b) = true -> i < j).
Proof.
  intros Hi Hj. apply tableRows_nth in Hi, Hj. split.
  - intros _ Hlt. eapply sort_keyLt_before; try eassumption. left; exact Hlt.
  - intros Hc Hlt. eapply sort_keyLt_before; try eassumption.
    right; split; assumption.
Qed.

(** [tableRows_sorted] on a catalog of three functions out of order: the
    entry of category "alpha" stands in row 2, that of "zeta" in row 3. *)
Lemma tableRows_sorted_witness :
  let zeta := (lit "zeta", lit "`a()`", lit "Last.") in
  let alpha_b := (lit "alpha", lit "`b()`", lit "Second.") in
  let alpha_a := (lit "alpha", lit "`a()`", lit "First.") in
  let rows := tableRows FUNCTIONS_HEADER [zeta; alpha_b; alpha_a] in
  nth_error rows 2 = Some (row alpha_b)
  /\ nth_error rows 3 = Some (row zeta)
  /\ strlt (category alpha_b) (category zeta) = true
  /\ 1 < 2.
Proof.
  intros zeta alpha_b alpha_a rows.
  split; [reflexivity|]. split; [reflexivity|]. split; [reflexivity|].
  apply (proj1 (tableRows_sorted FUNCTIONS_HEADER [zeta; alpha_b; alpha_a]
                  1 2 alpha_b zeta eq_refl eq_refl)).
  - discriminate.
  - reflexivity.
Defined.

(** ** Occurrences *)

Lemma OccursAt_app_r (p a b : jsstring) (n : nat) :
  OccursAt p b n -> OccursAt p (a ++ b) (length a + n).
Proof.
  intros (x & y & -> & <-). exists (a ++ x), y.
  rewrite <- app_assoc, length_app. auto.
Qed.

Lemma app_eq_length_le {A} (a b x y : list A) :
  a ++ b = x ++ y -> length a <= length x ->
  exists z, x = a ++ z /\ b = z ++ y.
Proof.
  revert x; induction a as [|c a IH]; intros x H Hlen; simpl in *.
  - exists x. auto.
  - destruct x as [|c' x]; simpl in *; [lia|].
    injection H as <- H. destruct (IH x H) as (z & -> & ->); [lia|].
    exists z. auto.
Qed.

Lemma OccursAt_skip (p a b : jsstring) (m : nat) :
  OccursAt p (a ++ b) m -> length a <= m -> OccursAt p b (m - length a).
Proof.
  intros (x & y & H & <-) Hle.
  destruct (app_eq_length_le _ _ _ _ H Hle) as (z & -> & ->).
  exists z, y. split; [reflexivity|]. rewrite length_app. lia.
Qed.

Lemma OccursAt_change_tail (p a x y : jsstring) (m : nat) :
  OccursAt p (a ++ x) m -> m + length p <= length a -> OccursAt p (a ++ y) m.
Proof.
  intros (u & v & H & <-) Hle.
  assert (H' : (u ++ p) ++ v = a ++ x) by (rewrite <- app_assoc; auto).
  assert (Hlen : length (u ++ p) <= length a) by (rewrite length_app; lia).
  destruct (app_eq_length_le _ _ _ _ H' Hlen) as (z & -> & _).
  exists u, (z ++ y). rewrite <- !app_assoc. auto.
Qed.

(** ** The matcher *)

Lemma anyPlus_None_iff (e0 : nat) (s : jsstring)
    (caps : list (option jsstring)) (k : Continuation) :
  anyPlus e0 s caps k = None
  <-> forall mid rest,
        s = mid ++ rest -> mid <> [] ->
        k {| endIndex := e0 + length mid; input := rest; captures := caps |}
        = None.
Proof.
  revert e0; induction s as [|c s IH]; intros e0; simpl.
  - split; [|reflexivity]. intros _ mid rest H Hne.
    destruct mid; [congruence | discriminate].
  - destruct (anyPlus (S e0) s caps k) as [y|] eqn:E.
    + split; [discriminate|]. intros H.
      assert (E' : anyPlus (S e0) s caps k = None).
      { apply IH. intros mid rest Hs Hne.
        specialize (H (c :: mid) rest). simpl in H.
        rewrite <- plus_n_Sm in H. apply H; [congruence | discriminate]. }
      congruence.
    + rewrite IH in E. split.
      * intros Hk mid rest Hs Hne.
        destruct mid as [|c' mid]; [congruence|].
        simpl in Hs. injection Hs as <- ->.
        destruct mid as [|c'' mid].
        -- simpl. rewrite Nat.add_1_r. exact Hk.
        -- specialize (E (c'' :: mid) rest eq_refl).
           simpl length. rewrite <- plus_n_Sm. apply E. discriminate.
      * intros H. specialize (H [c] s eq_refl). simpl in H.
        rewrite Nat.add_1_r in H. apply H. discriminate.
Qed.

Lemma anyPlus_Some_iff (e0 : nat) (s : jsstring)
    (caps : list (option jsstring)) (k : Continuation) (y : MatchState) :
  anyPlus e0 s caps k = Some y
  <-> exists mid rest,
        s = mid ++ rest /\ mid <> []
        /\ k {| endIndex := e0 + length mid; input := rest; captures := caps |}
           = Some y
        /\ forall mid' rest',
             s = mid' ++ rest' -> length mid < length mid' ->
             k {| endIndex := e0 + length mid'; input := rest';
                  captures := caps |} = None.
Proof.
  revert e0 y; induction s as [|c s IH]; intros e0 y; simpl.
  - split; [discriminate|]. intros (mid & rest & H & Hne & _).
    destruct mid; [congruence | discriminate].
  - destruct (anyPlus (S e0) s caps k) as [y'|] eqn:E.
    + apply IH in E. destruct E as (mid & rest & -> & Hne & Hk & Hmax).
      assert (Hlonger : forall mid' rest',
                 c :: mid ++ rest = mid' ++ rest' ->
                 length (c :: mid) < length mid' ->
                 k {| endIndex := e0 + length mid'; input := rest';
                      captures := caps |} = None).
      { intros mid' rest' Hs Hlen.
        destruct mid' as [|c' mid']; [simpl in Hlen; lia|].
        simpl in Hs. injection Hs as <- Hs.
        simpl length. rewrite <- plus_n_Sm.
        apply Hmax; [assumption | simpl in Hlen; lia]. }
      split.
      * intros Hy. injection Hy as <-.
        exists (c :: mid), rest. split; [reflexivity|].
        split; [discriminate|]. split; [|exact Hlonger].
        simpl length. rewrite <- plus_n_Sm. exact Hk.
      * intros (mid2 & rest2 & Hs & Hne2 & Hk2 & Hmax2).
        simpl in Hk.
        destruct (Nat.lt_trichotomy (length (c :: mid)) (length mid2))
          as [Hlt | [Heq | Hgt]].
        -- rewrite (Hlonger _ _ Hs Hlt) in Hk2. discriminate.
        -- assert (Hsame : c :: mid = mid2 /\ rest = rest2).
           { change (c :: mid ++ rest) with ((c :: mid) ++ rest) in Hs.
             apply app_eq_app in Hs.
             destruct Hs as (z & [[Ha Hb] | [Ha Hb]]).
             - rewrite Ha, length_app in Heq.
               destruct z; [|simpl in Heq; lia].
               rewrite app_nil_r in Ha. simpl in Hb. auto.
             - rewrite Ha, length_app in Heq.
               destruct z; [|simpl in Heq; lia].
               rewrite app_nil_r in Ha. simpl in Hb. auto. }
           destruct Hsame as [<- <-].
           simpl length in Hk2. rewrite <- plus_n_Sm in Hk2. congruence.
        -- specialize (Hmax2 (c :: mid) rest eq_refl Hgt).
           simpl length in Hmax2. rewrite <- plus_n_Sm in Hmax2. congruence.
    + rewrite anyPlus_None_iff in E. split.
      * intros Hk. exists [c], s. split; [reflexivity|].
        split; [discriminate|]. split.
        -- simpl. rewrite Nat.add_1_r. exact Hk.
        -- intros mid' rest' Hs Hlen.
           destruct mid' as [|c' mid']; [simpl in Hlen; lia|].
           simpl in Hs. injection Hs as <- ->.
           simpl length. rewrite <- plus_n_Sm.
           apply E; [reflexivity|]. destruct mid'; [simpl in Hlen; lia|].
           discriminate.
      * intros (mid & rest & Hs & Hne & Hk & _).
        destruct mid as [|c' mid]; [congruence|].
        simpl in Hs. injection Hs as <- ->.
        destruct mid as [|c'' mid].
        -- simpl in Hk. rewrite Nat.add_1_r in Hk. exact Hk.
        -- specialize (E (c'' :: mid) rest eq_refl).
           simpl length in Hk. rewrite <- plus_n_Sm in Hk.
           simpl in E. rewrite E in Hk; [discriminate | discriminate].
Qed.

Lemma execFrom_None_iff (r : Regex) (i0 : nat) (str : jsstring) :
  execFrom r i0 str = None
  <-> forall a b,
        str = a ++ b ->
        matcher r {| endIndex := i0 + length a; input := b;
                     captures := repeat None (groupCount r) |} Some = None.
Proof.
  revert i0; induction str as [|c str IH]; intros i0; simpl.
  - destruct (matcher r _ Some) as [y|] eqn:E.
    + split; [discriminate|]. intros H.
      specialize (H [] [] eq_refl). simpl in H.
      rewrite Nat.add_0_r in H. congruence.
    + split; [|reflexivity]. intros _ a b H.
      destruct a; [|discriminate]. simpl in H. subst b. simpl.
      rewrite Nat.add_0_r. exact E.
  - destruct (matcher r _ Some) as [y|] eqn:E.
    + split; [discriminate|]. intros H.
      specialize (H [] (c :: str) eq_refl). simpl in H.
      rewrite Nat.add_0_r in H. congruence.
    + rewrite IH. split.
      * intros H a b Hs. destruct a as [|c' a].
        -- simpl in Hs. subst b. simpl. rewrite Nat.add_0_r. exact E.
        -- simpl in Hs. injection Hs as <- Hs.
           simpl length. rewrite <- plus_n_Sm. apply H. exact Hs.
      * intros H a b Hs. specialize (H (c :: a) b).
        simpl in H. rewrite <- plus_n_Sm in H. apply H. congruence.
Qed.

Lemma execFrom_Some_iff (r : Regex) (i0 : nat) (str : jsstring)
    (i : nat) (y : MatchState) :
  execFrom r i0 str = Some (i, y)
  <-> exists a b,
        str = a ++ b /\ i = i0 + length a
        /\ matcher r {| endIndex := i0 + length a; input := b;
                        captures := repeat None (groupCount r) |} Some
           = Some y
        /\ forall a' b',
             str = a' ++ b' -> length a' < length a ->
             matcher r {| endIndex := i0 + length a'; input := b';
                          captures := repeat None (groupCount r) |} Some
             = None.
Proof.
  revert i0; induction str as [|c str IH]; intros i0; simpl.
  - destruct (matcher r _ Some) as [y'|] eqn:E.
    + split.
      * intros H. injection H as <- <-. exists [], []. simpl.
        rewrite Nat.add_0_r. repeat split; auto. intros; lia.
      * intros (a & b & Hs & -> & Hm & _).
        destruct a; [|discriminate]. simpl in Hs. subst b.
        simpl in Hm. rewrite Nat.add_0_r in *. congruence.
    + split; [discriminate|]. intros (a & b & Hs & -> & Hm & _).
      destruct a; [|discriminate]. simpl in Hs. subst b.
      simpl in Hm. rewrite Nat.add_0_r in *. congruence.
  - destruct (matcher r _ Some) as [y'|] eqn:E.
    + split.
      * intros H. injection H as <- <-. exists [], (c :: str). simpl.
        rewrite Nat.add_0_r. repeat split; auto. intros; lia.
      * intros (a & b & Hs & -> & Hm & Hmin).
        destruct a as [|c' a].
        -- simpl in Hs. subst b. simpl in Hm.
           rewrite Nat.add_0_r in *. congruence.
        -- specialize (Hmin [] (c :: str) eq_refl). simpl in Hmin.
           rewrite Nat.add_0_r in Hmin. rewrite Hmin in E; [discriminate|lia].
    + rewrite IH. split.
      * intros (a & b & -> & -> & Hm & Hmin).
        exists (c :: a), b. simpl length. rewrite <- plus_n_Sm.
        repeat split; auto.
        intros a' b' Hs Hlen. destruct a' as [|c' a'].
        -- simpl in Hs. subst b'. simpl. rewrite Nat.add_0_r. exact E.
        -- simpl in Hs. injection Hs as <- Hs.
           simpl length. rewrite <- plus_n_Sm.
           apply Hmin; [assumption | simpl in Hlen; lia].
      * intros (a & b & Hs & -> & Hm & Hmin).
        destruct a as [|c' a].
        -- simpl in Hs. subst b. simpl in Hm.
           rewrite Nat.add_0_r in Hm. congruence.
        -- simpl in Hs. injection Hs as <- ->.
           exists a, b. simpl length in *. rewrite <- plus_n_Sm in *.
           repeat split; auto.
           intros a' b' Hs Hlen. specialize (Hmin (c :: a') b').
           simpl in Hmin. rewrite <- plus_n_Sm in Hmin.
           apply Hmin; [congruence | lia].
Qed.

(** ** The pattern  s([^]+)e  for literal [s] and [e] *)

Section Region.

Variables s e : jsstring.

Let region : Regex :=
  Seq (PatternChars s) (Seq (Group 0 AnyPlus) (PatternChars e)).

Let matchAt (i : nat) (str : jsstring) : option MatchState :=
  matcher region
    {| endIndex := i; input := str;
       captures := repeat None (groupCount region) |} Some.

Let found (i : nat) (mid rest : jsstring) : MatchState :=
  {| endIndex := i + length s + length mid + length e;
     input := rest;
     captures := [Some mid] |}.

(** After [s], what the group and [e] do with a middle part [mid]. *)
Let afterGroup (i : nat) (s1 : jsstring) : Continuation :=
  fun y =>
    match stripPrefix e (input y) with
    | Some r =>
        Some {| endIndex := endIndex y + length e;
                input := r;
                captures :=
                  setCapture 0 (firstn (endIndex y - (i + length s)) s1)
                    (captures y) |}
    | None => None
    end.

Lemma matchAt_unfold (i : nat) (str : jsstring) :
  matchAt i str
  = match stripPrefix s str with
    | Some s1 => anyPlus (i + length s) s1 [None] (afterGroup i s1)
    | None => None
    end.
Proof.
  unfold matchAt, region, afterGroup. simpl.
  destruct (stripPrefix s str); reflexivity.
Qed.

Lemma afterGroup_at (i : nat) (mid rest : jsstring) :
  afterGroup i (mid ++ rest)
    {| endIndex := i + length s + length mid; input := rest;
       captures := [None] |}
  = match stripPrefix e rest with
    | Some r => Some (found i mid r)
    | None => None
    end.
Proof.
  unfold afterGroup, found. simpl.
  destruct (stripPrefix e rest); [|reflexivity].
  replace (i + length s + length mid - (i + length s)) with (length mid)
    by lia.
  rewrite firstn_app_exact. reflexivity.
Qed.

(** A match at a given index: [s], then the longest non-empty middle part
    that is followed by [e]. *)
Lemma matchAt_Some_iff (i : nat) (str : jsstring) (y : MatchState) :
  matchAt i str = Some y
  <-> exists mid rest,
        str = s ++ mid ++ e ++ rest /\ mid <> []
        /\ (forall mid' rest',
              mid ++ e ++ rest = mid' ++ e ++ rest' ->
              length mid' <= length mid)
        /\ y = found i mid rest.
Proof.
  rewrite matchAt_unfold. destruct (stripPrefix s str) as [s1|] eqn:Es.
  - apply stripPrefix_Some in Es. subst str.
    rewrite anyPlus_Some_iff. split.
    + intros (mid & rest0 & -> & Hne & Hk & Hmax).
      rewrite afterGroup_at in Hk.
      destruct (stripPrefix e rest0) as [rest|] eqn:Ee; [|discriminate].
      apply stripPrefix_Some in Ee. subst rest0. injection Hk as <-.
      exists mid, rest. repeat split; auto.
      intros mid' rest' Heq.
      destruct (Nat.le_gt_cases (length mid') (length mid)) as [H|H];
        [assumption|].
      specialize (Hmax mid' (e ++ rest') Heq H).
      rewrite Heq, afterGroup_at, stripPrefix_app in Hmax. discriminate.
    + intros (mid & rest & Heq & Hne & Hmax & ->).
      apply app_inv_head in Heq. subst s1.
      exists mid, (e ++ rest). repeat split; auto.
      * rewrite afterGroup_at, stripPrefix_app. reflexivity.
      * intros mid' rest0 Heq Hlen. rewrite Heq, afterGroup_at.
        destruct (stripPrefix e rest0) as [rest'|] eqn:Ee; [|reflexivity].
        apply stripPrefix_Some in Ee. subst rest0.
        apply Hmax in Heq. lia.
  - split; [discriminate|]. intros (mid & rest & -> & _).
    rewrite stripPrefix_app in Es. discriminate.
Qed.

Lemma matchAt_None_iff (i : nat) (str : jsstring) :
  matchAt i str = None
  <-> forall mid rest, str = s ++ mid ++ e ++ rest -> mid = [].
Proof.
  rewrite matchAt_unfold. destruct (stripPrefix s str) as [s1|] eqn:Es.
  - apply stripPrefix_Some in Es. subst str.
    rewrite anyPlus_None_iff. split.
    + intros H mid rest Heq. apply app_inv_head in Heq. subst s1.
      destruct mid as [|c mid]; [reflexivity|]. exfalso.
      specialize (H (c :: mid) (e ++ rest) eq_refl).
      rewrite afterGroup_at, stripPrefix_app in H.
      discriminate H. discriminate.
    + intros H mid rest0 -> Hne. rewrite afterGroup_at.
      destruct (stripPrefix e rest0) as [rest|] eqn:Ee; [|reflexivity].
      apply stripPrefix_Some in Ee. subst rest0.
      exfalso. apply Hne. eapply H. reflexivity.
  - split; [|reflexivity]. intros _ mid rest ->.
    rewrite stripPrefix_app in Es. discriminate.
Qed.

(** No [s] with an [e] at least one code unit after it: no match. *)
Lemma exec_region_None (doc : jsstring) :
  (forall j m, OccursAt s doc j -> OccursAt e doc m -> m <= j + length s) ->
  exec region doc = None.
Proof.
  intros H. apply execFrom_None_iff. intros a b ->.
  apply matchAt_None_iff. intros mid rest ->.
  assert (Hs : OccursAt s (a ++ s ++ mid ++ e ++ rest) (length a))
    by (exists a, (mid ++ e ++ rest); auto).
  assert (He : OccursAt e (a ++ s ++ mid ++ e ++ rest)
                 (length a + length s + length mid)).
  { exists (a ++ s ++ mid), rest. rewrite <- !app_assoc.
    split; [reflexivity|]. rewrite !length_app. lia. }
  specialize (H _ _ Hs He). destruct mid; [reflexivity | simpl in H; lia].
Qed.

(** The match: from the first [s] to the last [e], provided at least one
    code unit lies between them. *)
Lemma exec_region_Some (pre mid post : jsstring) :
  let doc := pre ++ s ++ mid ++ e ++ post in
  mid <> [] ->
  (forall j, OccursAt s doc j -> length pre <= j) ->
  (forall m, OccursAt e doc m -> m <= length pre + length s + length mid) ->
  exec region doc = Some (length pre, found (length pre) mid post).
Proof.
  intros doc Hne Hfirst Hlast.
  apply execFrom_Some_iff. exists pre, (s ++ mid ++ e ++ post).
  split; [reflexivity|]. split; [reflexivity|]. split.
  - apply matchAt_Some_iff. exists mid, post. repeat split; auto.
    intros mid' rest' Heq.
    assert (He : OccursAt e doc (length pre + length s + length mid')).
    { exists (pre ++ s ++ mid'), rest'. unfold doc. rewrite Heq.
      rewrite <- !app_assoc. split; [reflexivity|].
      rewrite !length_app. lia. }
    apply Hlast in He. lia.
  - intros a' b' Heq Hlen.
    destruct (matcher region _ Some) as [y|] eqn:E; [|reflexivity].
    apply matchAt_Some_iff in E. destruct E as (mid' & rest' & -> & _).
    assert (Hs : OccursAt s doc (length a')).
    { exists a', (mid' ++ e ++ rest'). unfold doc. auto. }
    apply Hfirst in Hs. lia.
Qed.

(** Conversely, a match determines such a decomposition. *)
Lemma exec_region_inv (doc : jsstring) (i : nat) (y : MatchState) :
  exec region doc = Some (i, y) ->
  exists pre mid post,
    doc = pre ++ s ++ mid ++ e ++ post
    /\ i = length pre
    /\ mid <> []
    /\ (forall j, OccursAt s doc j -> length pre <= j)
    /\ (forall m, OccursAt e doc m ->
                  m <= length pre + length s + length mid)
    /\ y = found (length pre) mid post.
Proof.
  intros H. apply execFrom_Some_iff in H.
  destruct H as (pre & b & -> & -> & Hm & Hmin).
  apply matchAt_Some_iff in Hm.
  destruct Hm as (mid & post & -> & Hne & Hmax & ->).
  exists pre, mid, post. repeat split; auto.
  - intros j Hj.
    destruct (Nat.le_gt_cases (length pre) j) as [Hle|Hgt]; [assumption|].
    exfalso. destruct Hj as (a' & b' & Heq & <-).
    specialize (Hmin a' (s ++ b') Heq Hgt).
    (* what follows [s] at [a'] reaches the [e] of the match *)
    assert (Hlen : length (a' ++ s) <= length (pre ++ s))
      by (rewrite !length_app; lia).
    assert (Heq' : (a' ++ s) ++ b' = (pre ++ s) ++ mid ++ e ++ post)
      by (rewrite <- !app_assoc; auto).
    destruct (app_eq_length_le _ _ _ _ Heq' Hlen) as (z & Hz & ->).
    assert (Hnil : z ++ mid = []).
    { apply (proj1 (matchAt_None_iff _ _) Hmin (z ++ mid) post).
      rewrite <- !app_assoc. reflexivity. }
    apply app_eq_nil in Hnil. destruct Hnil. contradiction.
  - intros m Hm.
    destruct (Nat.le_gt_cases m (length pre + length s + length mid))
      as [Hle|Hgt]; [assumption|].
    exfalso.
    assert (Hm' : OccursAt e ((pre ++ s) ++ mid ++ e ++ post) m)
      by (rewrite <- app_assoc; exact Hm).
    apply OccursAt_skip in Hm'; [|rewrite length_app; lia].
    destruct Hm' as (mid' & rest' & Heq & Hlen).
    apply Hmax in Heq. rewrite length_app in Hlen. lia.
Qed.

(** [replace] on a match and without one. *)
Lemma replace_region_None (doc template : jsstring) :
  (forall j m, OccursAt s doc j -> OccursAt e doc m -> m <= j + length s) ->
  replace doc region template = doc.
Proof.
  intros H. unfold replace. rewrite exec_region_None by assumption.
  reflexivity.
Qed.

Lemma replace_region_Some (pre mid post template : jsstring) :
  let doc := pre ++ s ++ mid ++ e ++ post in
  mid <> [] ->
  (forall j, OccursAt s doc j -> length pre <= j) ->
  (forall m, OccursAt e doc m -> m <= length pre + length s + length mid) ->
  replace doc region template
  = pre ++ GetSubstitution (s ++ mid ++ e) doc (length pre) [Some mid] template
        ++ post.
Proof.
  intros doc Hne Hfirst Hlast. unfold replace.
  replace (exec region doc)
    with (Some (length pre, found (length pre) mid post))
    by (symmetry; apply exec_region_Some; assumption).
  unfold found; simpl endIndex; simpl captures.
  assert (Hmatched :
            firstn (length pre + length s + length mid + length e - length pre)
              (skipn (length pre) doc) = s ++ mid ++ e).
  { unfold doc. rewrite skipn_app_exact.
    replace (length pre + length s + length mid + length e - length pre)
      with (length (s ++ mid ++ e)) by (rewrite !length_app; lia).
    rewrite !app_assoc. rewrite <- !app_assoc.
    replace (s ++ mid ++ e ++ post) with ((s ++ mid ++ e) ++ post)
      by (rewrite <- !app_assoc; reflexivity).
    apply firstn_app_exact. }
  rewrite Hmatched. f_equal.
  - unfold doc. apply firstn_app_exact.
  - f_equal. unfold doc.
    replace (pre ++ s ++ mid ++ e ++ post)
      with ((pre ++ s ++ mid ++ e) ++ post)
      by (rewrite <- !app_assoc; reflexivity).
    replace (length pre + length (s ++ mid ++ e))
      with (length (pre ++ s ++ mid ++ e)) by (rewrite !length_app; lia).
    apply skipn_app_exact.
Qed.

End Region.

(** ** [GetSubstitution] *)

Section Substitution.

Variables (matched str : jsstring) (position : nat)
          (caps : list (option jsstring)).

Let expand := GetSubstitution matched str position caps.

(** Text without [$] is copied. *)
Lemma GetSubstitution_plain_app (a t : jsstring) :
  ~ In DOLLAR a -> expand (a ++ t) = a ++ expand t.
Proof.
  induction a as [|c a IH]; intros Hin; [reflexivity|].
  unfold expand in *. simpl.
  destruct (N.eqb_spec c DOLLAR) as [->|Hc].
  - exfalso. apply Hin. left; reflexivity.
  - simpl. f_equal. apply IH. intros H. apply Hin. right; exact H.
Qed.

Lemma GetSubstitution_plain (a : jsstring) :
  ~ In DOLLAR a -> expand a = a.
Proof.
  intros H. rewrite <- (app_nil_r a) at 1.
  rewrite GetSubstitution_plain_app by assumption.
  unfold expand. simpl. apply app_nil_r.
Qed.

Lemma GetSubstitution_dollar (d : N) (t2 : jsstring) :
  expand (DOLLAR :: d :: t2)
  = let oneDigit :=
      if (1 <=? digitValue d) && (digitValue d <=? length caps)
      then captureText caps (digitValue d) ++ expand t2
      else DOLLAR :: d :: expand t2 in
    if N.eqb d DOLLAR then DOLLAR :: expand t2
    else if N.eqb d AMPERSAND then matched ++ expand t2
    else if N.eqb d BACKTICK then firstn position str ++ expand t2
    else if N.eqb d QUOTE then
      skipn (position + length matched) str ++ expand t2
    else if isDigit d then
      match t2 with
      | d2 :: t3 =>
          if isDigit d2 then
            let index := 10 * digitValue d + digitValue d2 in
            if index <=? length caps then
              if 1 <=? index then captureText caps index ++ expand t3
              else DOLLAR :: d :: d2 :: expand t3
            else oneDigit
          else oneDigit
      | [] => oneDigit
      end
    else if N.eqb d LESS then DOLLAR :: LESS :: expand t2
    else DOLLAR :: expand (d :: t2).
Proof. reflexivity. Qed.

Lemma GetSubstitution_other (c : N) (t : jsstring) :
  c <> DOLLAR -> expand (c :: t) = c :: expand t.
Proof.
  intros H. unfold expand. simpl.
  destruct (N.eqb_spec c DOLLAR); [contradiction | reflexivity].
Qed.

(** A line feed ends every [$] pattern: what stands before it is expanded
    on its own. *)
Lemma GetSubstitution_line_feed (t rest : jsstring) :
  expand (t ++ LF :: rest) = expand t ++ LF :: expand rest.
Proof.
  assert (Hlf : forall r, expand (LF :: r) = LF :: expand r) by reflexivity.
  assert (H : forall n t, length t <= n ->
                expand (t ++ LF :: rest) = expand t ++ LF :: expand rest).
  { clear t. induction n as [|n IH]; intros t Hlen.
    - destruct t; [apply Hlf | simpl in Hlen; lia].
    - destruct t as [|c t1]; [apply Hlf|].
      assert (IH1 : expand (t1 ++ LF :: rest) = expand t1 ++ LF :: expand rest)
        by (apply IH; simpl in Hlen; lia).
      destruct (N.eq_dec c DOLLAR) as [->|Hc].
      2:{ cbn [app]. rewrite !GetSubstitution_other by assumption.
          rewrite IH1. reflexivity. }
      destruct t1 as [|d t2]; [reflexivity|].
      assert (IH2 : expand (t2 ++ LF :: rest) = expand t2 ++ LF :: expand rest)
        by (apply IH; simpl in Hlen; lia).
      cbn [app]. rewrite !GetSubstitution_dollar. cbv zeta.
      destruct (N.eqb d DOLLAR); [rewrite IH2; reflexivity|].
      destruct (N.eqb d AMPERSAND);
        [rewrite IH2, <- app_assoc; reflexivity|].
      destruct (N.eqb d BACKTICK);
        [rewrite IH2, <- app_assoc; reflexivity|].
      destruct (N.eqb d QUOTE);
        [rewrite IH2, <- app_assoc; reflexivity|].
      destruct (isDigit d).
      + destruct t2 as [|d2 t3].
        * cbn [app]. change (isDigit LF) with false. cbv iota.
          rewrite Hlf.
          destruct ((1 <=? digitValue d) && (digitValue d <=? length caps));
            [rewrite <- app_assoc|]; reflexivity.
        * assert (IH3 : expand (t3 ++ LF :: rest)
                        = expand t3 ++ LF :: expand rest)
            by (apply IH; simpl in Hlen; lia).
          cbn [app] in *.
          destruct (isDigit d2).
          -- destruct (10 * digitValue d + digitValue d2 <=? length caps).
             ++ destruct (1 <=? 10 * digitValue d + digitValue d2);
                  rewrite IH3; [rewrite <- app_assoc|]; reflexivity.
             ++ rewrite IH2.
                destruct ((1 <=? digitValue d)
                          && (digitValue d <=? length caps));
                  [rewrite <- app_assoc|]; reflexivity.
          -- rewrite IH2.
             destruct ((1 <=? digitValue d) && (digitValue d <=? length caps));
               [rewrite <- app_assoc|]; reflexivity.
      + destruct (N.eqb d LESS); [rewrite IH2; reflexivity|].
        cbn [app] in IH1. rewrite IH1. reflexivity. }
  apply (H (length t)). lia.
Qed.

End Substitution.

(** ** The merge into README.md *)

Lemma not_In_existsb (c : N) (l : jsstring) :
  existsb (N.eqb c) l = false -> ~ In c l.
Proof.
  intros H Hin.
  assert (existsb (N.eqb c) l = true)
    by (apply existsb_exists; exists c; split; [assumption | apply N.eqb_refl]).
  congruence.
Qed.

Lemma TOKEN_START_plain : ~ In DOLLAR TOKEN_START.
Proof. apply not_In_existsb. reflexivity. Qed.

Lemma TOKEN_END_plain : ~ In DOLLAR TOKEN_END.
Proof. apply not_In_existsb. reflexivity. Qed.

(** No character of the markers is a syntax character of the pattern
    language: in the pattern each stands for itself. *)
Lemma markers_are_pattern_characters :
  forallb (fun c => negb (existsb (N.eqb c)
                            (lit "^$\.*+?()[]{}|")))
    (TOKEN_START ++ TOKEN_END) = true.
Proof. reflexivity. Qed.

(** In a replacement text made of two plain parts around [t], each
    separated from it by a blank line, only [t] is subject to expansion. *)
Lemma GetSubstitution_padded (matched str : jsstring) (position : nat)
    (caps : list (option jsstring)) (a t b : jsstring) :
  ~ In DOLLAR a -> ~ In DOLLAR b ->
  GetSubstitution matched str position caps
    (a ++ [LF; LF] ++ t ++ [LF; LF] ++ b)
  = a ++ [LF; LF] ++ GetSubstitution matched str position caps t
      ++ [LF; LF] ++ b.
Proof.
  intros Ha Hb.
  rewrite (GetSubstitution_plain_app matched str position caps a _ Ha).
  f_equal. cbn [app].
  rewrite !GetSubstitution_other by discriminate.
  rewrite GetSubstitution_line_feed.
  rewrite GetSubstitution_other by discriminate.
  rewrite (GetSubstitution_plain matched str position caps b Hb).
  reflexivity.
Qed.

Section Merge.

#[local] Opaque TOKEN_START TOKEN_END.

Context {packages : Packages}.

Variables exportedTypes exportedFunctions : list Entry.

Let T := tables exportedTypes exportedFunctions.

(** The markers and the blank lines of the replacement text are copied;
    only the tables are subject to [$] expansion. *)
Lemma replacement_expanded (matched str : jsstring) (position : nat)
    (caps : list (option jsstring)) :
  GetSubstitution matched str position caps
    (replacement exportedTypes exportedFunctions)
  = TOKEN_START ++ [LF; LF]
      ++ GetSubstitution matched str position caps T
      ++ [LF; LF] ++ TOKEN_END.
Proof.
  unfold replacement.
  apply GetSubstitution_padded;
    [exact TOKEN_START_plain | exact TOKEN_END_plain].
Qed.

Lemma merge_unchanged (readme : jsstring) :
  (forall j m,
      OccursAt TOKEN_START readme j -> OccursAt TOKEN_END readme m ->
      m <= j + length TOKEN_START) ->
  merge exportedTypes exportedFunctions readme = readme.
Proof. intros H. unfold merge, apiRegion. apply replace_region_None, H. Qed.

Lemma merge_region (pre region post : jsstring) :
  let readme := pre ++ TOKEN_START ++ region ++ TOKEN_END ++ post in
  region <> [] ->
  (forall j, OccursAt TOKEN_START readme j -> length pre <= j) ->
  (forall m, OccursAt TOKEN_END readme m ->
             m <= length pre + length TOKEN_START + length region) ->
  merge exportedTypes exportedFunctions readme
  = pre ++ TOKEN_START ++ [LF; LF]
      ++ GetSubstitution (TOKEN_START ++ region ++ TOKEN_END) readme
           (length pre) [Some region] T
      ++ [LF; LF] ++ TOKEN_END ++ post.
Proof.
  intros readme Hne Hfirst Hlast. unfold merge, apiRegion.
  unfold readme.
  rewrite (replace_region_Some TOKEN_START TOKEN_END pre region post _
             Hne Hfirst Hlast).
  rewrite replacement_expanded. rewrite <- !app_assoc. reflexivity.
Qed.

(** Every run of the merge falls under one of the two lemmas above. *)
Lemma merge_cases (readme : jsstring) :
  merge exportedTypes exportedFunctions readme = readme
  \/ exists pre region post,
       readme = pre ++ TOKEN_START ++ region ++ TOKEN_END ++ post
       /\ region <> []
       /\ (forall j, OccursAt TOKEN_START readme j -> length pre <= j)
       /\ (forall m, OccursAt TOKEN_END readme m ->
                     m <= length pre + length TOKEN_START + length region).
Proof.
  unfold merge, replace.
  destruct (exec apiRegion readme) as [[i y]|] eqn:E; [right | left; reflexivity].
  apply exec_region_inv in E.
  destruct E as (pre & region & post & H1 & _ & H2 & H3 & H4 & _).
  exists pre, region, post. auto.
Qed.

(** What [updateReadme] does to the world. *)
Lemma updateReadme_run (w : World) (readme : jsstring) :
  fs w README = Some readme ->
  let updatedReadme := merge exportedTypes exportedFunctions readme in
  (updatedReadme = readme ->
   updateReadme exportedTypes exportedFunctions w
   = (Ok tt, log (ReadFile README) w))
  /\ (updatedReadme <> readme ->
      updateReadme exportedTypes exportedFunctions w
      = (Ok tt,
         {| sourceFiles := sourceFiles w;
            fs := fun p => if streq p README then Some updatedReadme
                           else fs w p;
            events := events w
                        ++ [ReadFile README; WriteFile README updatedReadme]
         |})).
Proof.
  intros Hfs updatedReadme. unfold updateReadme, bind, readFileSync.
  rewrite Hfs. fold updatedReadme. split; intros H.
  - rewrite (proj2 (streq_eq _ _) H). reflexivity.
  - rewrite (proj2 (streq_neq _ _) H). unfold writeFileSync, log. simpl.
    rewrite <- app_assoc. reflexivity.
Qed.

(** After [updateReadme], README.md holds the merged text. *)
Lemma updateReadme_content (w : World) (readme : jsstring) :
  fs w README = Some readme ->
  fs (snd (updateReadme exportedTypes exportedFunctions w)) README
  = Some (merge exportedTypes exportedFunctions readme).
Proof.
  intros Hfs. destruct (updateReadme_run w readme Hfs) as [Hsame Hdiff].
  destruct (list_eq_dec N.eq_dec
              (merge exportedTypes exportedFunctions readme) readme)
    as [E|E].
  - rewrite (Hsame E). simpl. congruence.
  - rewrite (Hdiff E). cbn [snd fs]. rewrite streq_refl. reflexivity.
Qed.

(** The write is skipped exactly when the merged text is the text read. *)
Lemma updateReadme_writes (w : World) (readme : jsstring) :
  fs w README = Some readme ->
  writesOf (events (snd (updateReadme exportedTypes exportedFunctions w)))
  = writesOf (events w)
      ++ (if streq (merge exportedTypes exportedFunctions readme) readme
          then []
          else [(README, merge exportedTypes exportedFunctions readme)]).
Proof.
  intros Hfs. destruct (updateReadme_run w readme Hfs) as [Hsame Hdiff].
  destruct (streq (merge exportedTypes exportedFunctions readme) readme)
    eqn:E.
  - apply streq_eq in E. rewrite (Hsame E). simpl.
    unfold writesOf. rewrite flat_map_app. reflexivity.
  - apply streq_neq in E. rewrite (Hdiff E). simpl.
    unfold writesOf. rewrite flat_map_app. reflexivity.
Qed.

(** When the tables hold no [$], the merged text is a fixed point of the
    merge. *)
Lemma merge_idempotent (readme : jsstring) :
  ~ In DOLLAR T ->
  merge exportedTypes exportedFunctions
    (merge exportedTypes exportedFunctions readme)
  = merge exportedTypes exportedFunctions readme.
Proof.
  intros Hplain.
  destruct (merge_cases readme)
    as [E | (pre & region & post & -> & Hne & Hfirst & Hlast)];
    [rewrite E; exact E|].
  rewrite (merge_region pre region post Hne Hfirst Hlast).
  rewrite GetSubstitution_plain by exact Hplain.
  set (region' := [LF; LF] ++ T ++ [LF; LF]).
  replace (pre ++ TOKEN_START ++ [LF; LF] ++ T ++ [LF; LF] ++ TOKEN_END ++ post)
    with (pre ++ TOKEN_START ++ region' ++ TOKEN_END ++ post)
    by (unfold region'; rewrite <- !app_assoc; reflexivity).
  rewrite merge_region.
  - rewrite GetSubstitution_plain by exact Hplain.
    unfold region'. rewrite <- !app_assoc. reflexivity.
  - discriminate.
  - (* the first start marker is still the first *)
    intros j Hj.
    destruct (Nat.le_gt_cases (length pre) j) as [Hle|Hgt]; [assumption|].
    apply Hfirst.
    rewrite app_assoc in Hj. rewrite app_assoc.
    eapply OccursAt_change_tail; [exact Hj|]. rewrite length_app. lia.
  - (* the end marker written is the last *)
    intros m Hm.
    destruct (Nat.le_gt_cases m
                (length pre + length TOKEN_START + length region'))
      as [Hle|Hgt]; [assumption|]. exfalso.
    assert (Hm' : OccursAt TOKEN_END
                    ((pre ++ TOKEN_START ++ region') ++ TOKEN_END ++ post) m)
      by (rewrite <- !app_assoc; exact Hm).
    apply OccursAt_skip in Hm'; [|rewrite !length_app; lia].
    apply (OccursAt_app_r _ (pre ++ TOKEN_START ++ region)) in Hm'.
    rewrite <- !app_assoc in Hm'. apply Hlast in Hm'.
    rewrite !length_app in *. lia.
Qed.

End Merge.

(** ** README.md with and without a region *)

Lemma markerPairs_nil (readme : jsstring) :
  markerPairs readme = [] ->
  forall j m,
    OccursAt TOKEN_START readme j -> OccursAt TOKEN_END readme m ->
    m <= j + length TOKEN_START.
Proof.
  intros Hnil j m Hj Hm.
  destruct (Nat.le_gt_cases (j + length TOKEN_START) m) as [Hle|Hgt]; [|lia].
  exfalso.
  assert (Hin : In (j, m) (markerPairs readme)).
  { unfold markerPairs. apply filter_In. split.
    - apply in_prod; apply In_occurrences; assumption.
    - simpl. apply Nat.leb_le. exact Hle. }
  rewrite Hnil in Hin. exact Hin.
Qed.

Lemma occurrences_single (p readme : jsstring) (i : nat) :
  occurrences p readme = [i] -> forall j, OccursAt p readme j -> j = i.
Proof.
  intros H j Hj. apply In_occurrences in Hj. rewrite H in Hj.
  destruct Hj as [<- | []]. reflexivity.
Qed.

Section Region_claims.

Context {packages : Packages}.

(** C6.  When README.md holds no start marker with an end marker after it,
    the merged text is the text read, whatever the catalogs hold;
    [updateReadme] returns without an exception, and all it does is read
    the file: nothing is written, nothing is reported. *)
Theorem updateReadme_without_markers
    (exportedTypes exportedFunctions : list Entry)
    (w : World) (readme : jsstring) :
  fs w README = Some readme ->
  markerPairs readme = [] ->
  merge exportedTypes exportedFunctions readme = readme
  /\ updateReadme exportedTypes exportedFunctions w
     = (Ok tt, log (ReadFile README) w).
Proof.
  intros Hfs Hnil.
  assert (E : merge exportedTypes exportedFunctions readme = readme)
    by (apply merge_unchanged, markerPairs_nil, Hnil).
  split; [exact E|].
  apply (updateReadme_run exportedTypes exportedFunctions w readme Hfs), E.
Qed.

(** C10.  When the only start marker of README.md is immediately followed
    by its only end marker, the merged text is the text read, whatever the
    catalogs hold, and [updateReadme] writes nothing: the pattern asks for
    at least one code unit between the markers. *)
Theorem updateReadme_adjacent_markers
    (exportedTypes exportedFunctions : list Entry)
    (w : World) (readme : jsstring) (i : nat) :
  fs w README = Some readme ->
  occurrences TOKEN_START readme = [i] ->
  occurrences TOKEN_END readme = [i + length TOKEN_START] ->
  merge exportedTypes exportedFunctions readme = readme
  /\ updateReadme exportedTypes exportedFunctions w
     = (Ok tt, log (ReadFile README) w).
Proof.
  intros Hfs Hstart Hend.
  assert (E : merge exportedTypes exportedFunctions readme = readme).
  { apply merge_unchanged. intros j m Hj Hm.
    apply (occurrences_single _ _ _ Hstart) in Hj.
    apply (occurrences_single _ _ _ Hend) in Hm. lia. }
  split; [exact E|].
  apply (updateReadme_run exportedTypes exportedFunctions w readme Hfs), E.
Qed.

(** C9.  When README.md holds exactly one start marker, later exactly one
    end marker, and at least one code unit between them, the merged text is
    the text before the start marker, the start marker, a blank line, the
    new content, a blank line, the end marker and the text after the end
    marker: the text outside the markers and the markers are copied as they
    are.  The new content is the tables after the [$] expansion of
    [replace], hence the tables themselves when they hold no [$].  After
    [updateReadme], README.md holds the merged text. *)
Theorem merge_replaces_region
    (exportedTypes exportedFunctions : list Entry)
    (w : World) (pre region post : jsstring) :
  let readme := pre ++ TOKEN_START ++ region ++ TOKEN_END ++ post in
  region <> [] ->
  occurrences TOKEN_START readme = [length pre] ->
  occurrences TOKEN_END readme
  = [length pre + length TOKEN_START + length region] ->
  fs w README = Some readme ->
  exists content,
    merge exportedTypes exportedFunctions readme
    = pre ++ TOKEN_START ++ [LF; LF] ++ content ++ [LF; LF]
        ++ TOKEN_END ++ post
    /\ content
       = GetSubstitution (TOKEN_START ++ region ++ TOKEN_END) readme
           (length pre) [Some region]
           (tables exportedTypes exportedFunctions)
    /\ (~ In DOLLAR (tables exportedTypes exportedFunctions) ->
        content = tables exportedTypes exportedFunctions)
    /\ fs (snd (updateReadme exportedTypes exportedFunctions w)) README
       = Some (merge exportedTypes exportedFunctions readme).
Proof.
  intros readme Hne Hstart Hend Hfs.
  eexists. split; [|split; [reflexivity|split]].
  - apply merge_region; [exact Hne | |].
    + intros j Hj. apply (occurrences_single _ _ _ Hstart) in Hj. lia.
    + intros m Hm. apply (occurrences_single _ _ _ Hend) in Hm. lia.
  - intros Hplain. apply GetSubstitution_plain, Hplain.
  - apply updateReadme_content, Hfs.
Qed.

End Region_claims.

(** *** Concrete runs *)

(** [updateReadme_without_markers] on a README.md with a start marker only. *)
Lemma updateReadme_without_markers_witness :
  let packages := examplePackages [] in
  let readme := lit "# API" ++ [LF] ++ TOKEN_START ++ [LF] in
  let w := exampleWorld [] readme in
  merge [] mathCatalog readme = readme
  /\ updateReadme [] mathCatalog w = (Ok tt, log (ReadFile README) w).
Proof.
  intros packages readme w.
  apply (@updateReadme_without_markers packages [] mathCatalog w readme);
    reflexivity.
Defined.

(** [updateReadme_adjacent_markers] on a README.md with an empty region. *)
Lemma updateReadme_adjacent_markers_witness :
  let packages := examplePackages [] in
  let readme := lit "# API" ++ [LF] ++ TOKEN_START ++ TOKEN_END ++ [LF] in
  let w := exampleWorld [] readme in
  merge [] mathCatalog readme = readme
  /\ updateReadme [] mathCatalog w = (Ok tt, log (ReadFile README) w).
Proof.
  intros packages readme w.
  apply (@updateReadme_adjacent_markers packages [] mathCatalog w readme 6);
    reflexivity.
Defined.

(** [merge_replaces_region] on [readmeWithRegion]. *)
Lemma merge_replaces_region_witness :
  let packages := examplePackages [] in
  let w := exampleWorld [] readmeWithRegion in
  exists content,
    merge [] mathCatalog readmeWithRegion
    = (lit "# API" ++ [LF]) ++ TOKEN_START ++ [LF; LF] ++ content ++ [LF; LF]
        ++ TOKEN_END ++ [LF] ++ lit "License: MIT"
    /\ content
       = GetSubstitution
           (TOKEN_START ++ ([LF] ++ lit "old" ++ [LF]) ++ TOKEN_END)
           readmeWithRegion 6 [Some ([LF] ++ lit "old" ++ [LF])]
           (tables [] mathCatalog)
    /\ (~ In DOLLAR (tables [] mathCatalog) ->
        content = tables [] mathCatalog)
    /\ fs (snd (updateReadme [] mathCatalog w)) README
       = Some (merge [] mathCatalog readmeWithRegion).
Proof.
  intros packages w.
  apply (@merge_replaces_region packages [] mathCatalog w
           (lit "# API" ++ [LF]) ([LF] ++ lit "old" ++ [LF])
           ([LF] ++ lit "License: MIT")).
  - discriminate.
  - reflexivity.
  - reflexivity.
  - reflexivity.
Defined.

(** ** Leading comments *)

Lemma lastBlockComment_None (cs : list Comment) :
  lastBlockComment cs = None <-> existsb isCommentBlock cs = false.
Proof.
  induction cs as [|c cs IH]; simpl; [tauto|].
  destruct (lastBlockComment cs) as [found|].
  - split; [discriminate|]. intros H.
    apply orb_false_iff in H. destruct H as [_ H].
    apply IH in H. discriminate.
  - destruct (isCommentBlock c); simpl.
    + split; discriminate.
    + split; [intros _; apply IH; reflexivity | reflexivity].
Qed.

(** The comment found is a block comment, and no block comment follows it. *)
Lemma lastBlockComment_Some (cs : list Comment) (found : Comment) :
  lastBlockComment cs = Some found ->
  exists before after,
    cs = before ++ found :: after
    /\ isCommentBlock found = true
    /\ existsb isCommentBlock after = false.
Proof.
  revert found; induction cs as [|c cs IH]; intros found; simpl; [discriminate|].
  destruct (lastBlockComment cs) as [found'|] eqn:E.
  - intros H; injection H as <-.
    destruct (IH found' eq_refl) as (before & after & -> & Hb & Ha).
    exists (c :: before), after. auto.
  - destruct (isCommentBlock c) eqn:Ec; [|discriminate].
    intros H; injection H as <-.
    exists [], cs. repeat split; auto. apply lastBlockComment_None, E.
Qed.

Lemma findLastBlockComment_None (comments : option (list Comment)) :
  findLastBlockComment comments = None <-> hasBlockComment comments = false.
Proof.
  destruct comments as [cs|]; simpl; [apply lastBlockComment_None | tauto].
Qed.

(** ** Visiting the statements of a file *)

Lemma isEmpty_false (s : jsstring) : s <> [] -> isEmpty s = false.
Proof. destruct s; [congruence | reflexivity]. Qed.

Section Pipeline.

Context {packages : Packages}.

(** C7.  Take an exported declaration with a name and a display identifier
    (for a function, its rendered signature).  When its leading comments
    hold no block comment, visiting it leaves both catalogs as they are,
    reports exactly one warning, made of "WARN", the file path followed by
    a colon, and the display identifier followed by
    " is exported but undocumented", and returns normally, so that the
    statements after it are visited.  When they hold a block comment, no
    warning is reported and one entry is added, to the functions for a
    function declaration and to the types otherwise, whose description is
    the brief of the last block comment, be it empty or not. *)
Theorem visitStatement_documentation
    (file cat : jsstring) (declaration : option Declaration)
    (leadingComments : option (list Comment)) (ident : jsstring)
    (c : Catalog) (w : World) :
  let node := ExportNamedDeclaration declaration leadingComments in
  getExportedName declaration <> [] ->
  identifier (getExportedName declaration) declaration = Ok ident ->
  (hasBlockComment leadingComments = false ->
   visitStatement file cat node c w
   = (Ok c, log (Warn (undocumented file ident)) w)
   /\ warningsOf (events (snd (visitStatement file cat node c w)))
      = warningsOf (events w)
          ++ [[lit "WARN"; file ++ lit ":";
               ident ++ lit " is exported but undocumented"]]
   /\ forall later,
        forEach (visitStatement file cat) (node :: later) c w
        = forEach (visitStatement file cat) later c
            (log (Warn (undocumented file ident)) w))
  /\ (hasBlockComment leadingComments = true ->
      exists commentBlock,
        findLastBlockComment leadingComments = Some commentBlock
        /\ let entry :=
             (cat, ident,
              extractBrief
                (renderDocNode
                   (Some (tsdocSummary
                            (lit "/*" ++ value commentBlock ++ lit "*/"))))) in
           visitStatement file cat node c w
           = (Ok (if isFunctionDeclaration declaration
                  then {| exportedFunctions := exportedFunctions c ++ [entry];
                          exportedTypes := exportedTypes c |}
                  else {| exportedFunctions := exportedFunctions c;
                          exportedTypes := exportedTypes c ++ [entry] |}),
              w)).
Proof.
  intros node Hname Hident.
  assert (Hvisit :
            visitStatement file cat node c w
            = match findLastBlockComment leadingComments with
              | None => (Ok c, log (Warn (undocumented file ident)) w)
              | Some commentBlock =>
                  let entry :=
                    (cat, ident,
                     extractBrief
                       (renderDocNode
                          (Some (tsdocSummary
                                   (lit "/*" ++ value commentBlock
                                      ++ lit "*/"))))) in
                  (Ok (if isFunctionDeclaration declaration
                       then {| exportedFunctions :=
                                 exportedFunctions c ++ [entry];
                               exportedTypes := exportedTypes c |}
                       else {| exportedFunctions := exportedFunctions c;
                               exportedTypes := exportedTypes c ++ [entry] |}),
                   w)
              end).
  { unfold node, visitStatement. rewrite (isEmpty_false _ Hname).
    unfold bind, liftResult. rewrite Hident.
    destruct (findLastBlockComment leadingComments) as [commentBlock|].
    - cbv zeta. destruct (isFunctionDeclaration declaration); reflexivity.
    - reflexivity. }
  split.
  - intros Hnone. apply findLastBlockComment_None in Hnone.
    rewrite Hnone in Hvisit. split; [exact Hvisit|]. split.
    + rewrite Hvisit. simpl. unfold warningsOf. rewrite flat_map_app.
      reflexivity.
    + intros later. cbn [forEach]. unfold bind at 1. rewrite Hvisit.
      reflexivity.
  - intros Hsome.
    destruct (findLastBlockComment leadingComments) as [commentBlock|] eqn:E.
    + exists commentBlock. split; [reflexivity | exact Hvisit].
    + apply findLastBlockComment_None in E. congruence.
Qed.

(** ** Building the catalogs *)

Lemma Extends_refl (P : Event -> Prop) (w : World) : Extends P w w.
Proof.
  repeat split. exists []. rewrite app_nil_r. split; [reflexivity|constructor].
Qed.

Lemma Extends_trans (P : Event -> Prop) (w1 w2 w3 : World) :
  Extends P w1 w2 -> Extends P w2 w3 -> Extends P w1 w3.
Proof.
  intros (Hs & Hf & evs & He & HP) (Hs' & Hf' & evs' & He' & HP').
  repeat split; try congruence.
  exists (evs ++ evs'). split.
  - rewrite He', He, app_assoc. reflexivity.
  - apply Forall_app. auto.
Qed.

Lemma Extends_log (P : Event -> Prop) (ev : Event) (w : World) :
  P ev -> Extends P w (log ev w).
Proof.
  intros H. repeat split. exists [ev]. split; [reflexivity|].
  constructor; [assumption | constructor].
Qed.

Lemma Extends_weaken (P Q : Event -> Prop) (w w' : World) :
  (forall ev, P ev -> Q ev) -> Extends P w w' -> Extends Q w w'.
Proof.
  intros H (Hs & Hf & evs & He & HP). repeat split; auto.
  exists evs. split; [assumption|]. eapply Forall_impl; eassumption.
Qed.

Lemma forEach_Extends {A S} (f : A -> S -> M S) (P : Event -> Prop)
    (xs : list A) :
  (forall x acc w, In x xs -> Extends P w (snd (f x acc w))) ->
  forall acc w, Extends P w (snd (forEach f xs acc w)).
Proof.
  induction xs as [|x xs IH]; intros Hf acc w; simpl.
  - apply Extends_refl.
  - unfold bind. specialize (Hf x acc w (or_introl eq_refl)) as Hx.
    destruct (f x acc w) as [[acc'|e] w']; simpl in *; [|exact Hx].
    eapply Extends_trans; [exact Hx|].
    apply IH. intros y acc0 w0 Hy. apply Hf. right; exact Hy.
Qed.

(** One throwing element makes the whole loop throw, provided the elements
    before it keep what makes it throw. *)
Lemma forEach_throws {A S} (f : A -> S -> M S) (I : World -> Prop)
    (xs : list A) (x : A) :
  (forall y acc w, I w -> I (snd (f y acc w))) ->
  In x xs ->
  (forall acc w, I w -> isThrow (fst (f x acc w)) = true) ->
  forall acc w, I w -> isThrow (fst (forEach f xs acc w)) = true.
Proof.
  intros Hkeep Hin Hx. induction xs as [|y xs IH]; intros acc w Hw;
    [destruct Hin|].
  simpl. unfold bind.
  destruct (f y acc w) as [[acc'|e] w'] eqn:E; [|reflexivity].
  destruct Hin as [-> | Hin].
  - specialize (Hx acc w Hw). rewrite E in Hx. discriminate.
  - apply IH; [assumption|].
    specialize (Hkeep y acc w Hw). rewrite E in Hkeep. exact Hkeep.
Qed.

Lemma visitStatement_Extends (file cat : jsstring) (node : Statement)
    (c : Catalog) (w : World) :
  Extends (scanning []) w (snd (visitStatement file cat node c w)).
Proof.
  destruct node as [declaration leadingComments | kind]; simpl;
    [|apply Extends_refl].
  destruct (isEmpty (getExportedName declaration)); [apply Extends_refl|].
  unfold bind, liftResult.
  destruct (identifier (getExportedName declaration) declaration)
    as [ident|e]; [|apply Extends_refl].
  destruct (findLastBlockComment leadingComments) as [commentBlock|].
  - destruct (isFunctionDeclaration declaration); apply Extends_refl.
  - simpl. apply Extends_log. exact I.
Qed.

Lemma visitFile_Extends (files : list jsstring) (file : jsstring)
    (c : Catalog) (w : World) :
  In file files ->
  Extends (scanning files) w (snd (visitFile file c w)).
Proof.
  intros Hin. unfold visitFile, bind, readFileSync.
  assert (Hread : Extends (scanning files) w (log (ReadFile file) w))
    by (apply Extends_log; exact Hin).
  destruct (fs w file) as [content|]; [|exact Hread].
  unfold liftResult.
  destruct (babelParse file content) as [body|e]; [|exact Hread].
  eapply Extends_trans; [exact Hread|].
  apply forEach_Extends. intros node acc w0 _.
  eapply Extends_weaken; [|apply visitStatement_Extends].
  intros [p | p d | args]; simpl; auto. intros [].
Qed.

(** Building the catalogs reads source files and warns; it writes nothing
    and leaves every file as it is. *)
Lemma collectExports_Extends (w : World) :
  Extends (scanning (sourceFiles w)) w (snd (collectExports w)).
Proof.
  unfold collectExports. apply forEach_Extends.
  intros file acc w0 Hin. apply visitFile_Extends, Hin.
Qed.

(** A file that does not parse makes the construction throw. *)
Lemma collectExports_syntax_error (w : World) (file content : jsstring) :
  In file (sourceFiles w) ->
  fs w file = Some content ->
  isThrow (babelParse file content) = true ->
  isThrow (fst (collectExports w)) = true.
Proof.
  intros Hin Hfs Hparse. unfold collectExports.
  apply forEach_throws with (I := fun w' => fs w' = fs w) (x := file);
    try assumption; try reflexivity.
  - intros y acc w0 Hw0.
    destruct (visitFile_Extends (y :: nil) y acc w0 (or_introl eq_refl))
      as (_ & Hf & _). congruence.
  - intros acc w0 Hw0. unfold visitFile, bind, readFileSync, liftResult.
    rewrite Hw0, Hfs.
    destruct (babelParse file content); [discriminate | reflexivity].
Qed.

(** An exported function whose signature does not render makes the
    construction throw. *)
Lemma collectExports_unsupported_parameter (w : World)
    (file content : jsstring) (body : list Statement)
    (name : jsstring) (params : list LVal)
    (leadingComments : option (list Comment)) :
  In file (sourceFiles w) ->
  fs w file = Some content ->
  babelParse file content = Ok body ->
  In (ExportNamedDeclaration (Some (FunctionDeclaration (Some name) params))
        leadingComments) body ->
  name <> [] ->
  isThrow (mapResult renderParamNode params) = true ->
  isThrow (fst (collectExports w)) = true.
Proof.
  intros Hin Hfs Hparse Hnode Hname Hrender. unfold collectExports.
  apply forEach_throws with (I := fun w' => fs w' = fs w) (x := file);
    try assumption; try reflexivity.
  - intros y acc w0 Hw0.
    destruct (visitFile_Extends (y :: nil) y acc w0 (or_introl eq_refl))
      as (_ & Hf & _). congruence.
  - intros acc w0 Hw0. unfold visitFile, bind at 1, readFileSync.
    rewrite Hw0, Hfs. unfold bind at 1, liftResult. rewrite Hparse.
    eapply forEach_throws with (I := fun _ => True); try exact Hnode; auto.
    intros acc1 w1 _. simpl. rewrite (isEmpty_false _ Hname).
    unfold bind, liftResult.
    destruct (mapResult renderParamNode params); [discriminate | reflexivity].
Qed.

Lemma writesOf_scanning (files : list jsstring) (evs : list Event) :
  Forall (scanning files) evs -> writesOf evs = [].
Proof.
  induction 1 as [|ev evs Hev _ IH]; [reflexivity|].
  destruct ev; simpl in *; [assumption | contradiction | assumption].
Qed.

Lemma readsOf_scanning (files : list jsstring) (evs : list Event) :
  Forall (scanning files) evs -> forall p, In p (readsOf evs) -> In p files.
Proof.
  induction 1 as [|ev evs Hev _ IH]; intros p Hp; [destruct Hp|].
  destruct ev; simpl in *; auto.
  destruct Hp as [<- | Hp]; auto.
Qed.

(** C8.  A source file that does not parse, or an exported function whose
    signature does not render, makes the construction of the catalogs
    throw.  When the construction throws, the run throws the same exception
    in the same world: every file is as it was, nothing has been written,
    and only source files have been read, so README.md has not been read
    unless it is itself a source file.  Hence a run that writes has built
    the catalogs over all source files without an exception. *)
Theorem updateApiReadme_fatal_errors (w : World) :
  (forall file content,
      In file (sourceFiles w) ->
      fs w file = Some content ->
      isThrow (babelParse file content) = true ->
      isThrow (fst (collectExports w)) = true)
  /\ (forall file content body name params leadingComments,
         In file (sourceFiles w) ->
         fs w file = Some content ->
         babelParse file content = Ok body ->
         In (ExportNamedDeclaration
               (Some (FunctionDeclaration (Some name) params))
               leadingComments) body ->
         name <> [] ->
         isThrow (mapResult renderParamNode params) = true ->
         isThrow (fst (collectExports w)) = true)
  /\ (forall e w',
         collectExports w = (Throw e, w') ->
         updateApiReadme w = (Throw e, w')
         /\ fs w' = fs w
         /\ exists evs,
              events w' = events w ++ evs
              /\ writesOf evs = []
              /\ (~ In README (sourceFiles w) -> ~ In README (readsOf evs)))
  /\ (forall evs,
         events (snd (updateApiReadme w)) = events w ++ evs ->
         writesOf evs <> [] ->
         isThrow (fst (collectExports w)) = false).
Proof.
  assert (Hthrow : forall e w',
             collectExports w = (Throw e, w') ->
             updateApiReadme w = (Throw e, w')
             /\ fs w' = fs w
             /\ exists evs,
                  events w' = events w ++ evs
                  /\ writesOf evs = []
                  /\ (~ In README (sourceFiles w) ->
                      ~ In README (readsOf evs))).
  { intros e w' E. split.
    - unfold updateApiReadme, bind. rewrite E. reflexivity.
    - pose proof (collectExports_Extends w) as H. rewrite E in H.
      destruct H as (_ & Hfs & evs & Hev & Hall). simpl in *.
      split; [exact Hfs|]. exists evs. split; [exact Hev|]. split.
      + eapply writesOf_scanning; eassumption.
      + intros Hnot Hin. apply Hnot.
        eapply readsOf_scanning; eassumption. }
  split; [exact (collectExports_syntax_error w)|].
  split; [exact (collectExports_unsupported_parameter w)|].
  split; [exact Hthrow|].
  intros evs Hev Hwrites.
  destruct (collectExports w) as [[c|e] w'] eqn:E; [reflexivity|].
  exfalso. destruct (Hthrow e w' eq_refl) as (Hrun & _ & evs' & Hev' & Hw' & _).
  rewrite Hrun in Hev. simpl in Hev. rewrite Hev' in Hev.
  apply app_inv_head in Hev. subst evs'. contradiction.
Qed.

End Pipeline.

(** *** Concrete runs of the pipeline *)

(** [visitStatement_documentation] on [add(a, b)] in src/math.ts: once with
    a line comment only, once with a block comment whose brief is empty. *)
Lemma visitStatement_documentation_witness :
  let packages := examplePackages exampleProgram in
  let w := exampleSources [mathFile] in
  let lineOnly :=
    Some [{| type := CommentLine; value := lit " eslint-disable-next-line" |}] in
  let blank := Some [{| type := CommentBlock; value := lit "  " |}] in
  visitStatement mathFile (lit "math")
    (ExportNamedDeclaration addDeclaration lineOnly) emptyCatalog w
  = (Ok emptyCatalog,
     log (Warn [lit "WARN"; lit "src/math.ts:";
                lit "`add(a, b)` is exported but undocumented"]) w)
  /\ visitStatement mathFile (lit "math")
       (ExportNamedDeclaration addDeclaration blank) emptyCatalog w
     = (Ok {| exportedFunctions := [(lit "math", lit "`add(a, b)`", [])];
              exportedTypes := [] |},
        w).
Proof.
  intros packages w lineOnly blank. split.
  - apply (proj1 (@visitStatement_documentation packages mathFile (lit "math")
                    addDeclaration lineOnly (lit "`add(a, b)`")
                    emptyCatalog w ltac:(discriminate) eq_refl)).
    reflexivity.
  - destruct (proj2 (@visitStatement_documentation packages mathFile
                       (lit "math") addDeclaration blank (lit "`add(a, b)`")
                       emptyCatalog w ltac:(discriminate) eq_refl) eq_refl)
      as (commentBlock & Hfound & Hvisit).
    injection Hfound as <-. exact Hvisit.
Defined.

(** [updateApiReadme_fatal_errors] on a package where the second file does
    not parse, and on one where the second file exports
    [inject(private x)]: both runs throw and write nothing. *)
Lemma updateApiReadme_fatal_errors_witness :
  let packages := examplePackages exampleProgram in
  (isThrow (fst (collectExports (exampleSources [mathFile; brokenFile])))
   = true
   /\ isThrow (fst (collectExports (exampleSources [mathFile; injectFile])))
      = true)
  /\ updateApiReadme (exampleSources [mathFile; brokenFile])
     = (Throw (lit "SyntaxError"),
        log (ReadFile brokenFile)
          (log (ReadFile mathFile) (exampleSources [mathFile; brokenFile]))).
Proof.
  intros packages. split; [split|].
  - apply (proj1 (@updateApiReadme_fatal_errors packages
                    (exampleSources [mathFile; brokenFile]))
             brokenFile (lit "export function ...")).
    + right; left; reflexivity.
    + reflexivity.
    + reflexivity.
  - apply (proj1 (proj2 (@updateApiReadme_fatal_errors packages
                           (exampleSources [mathFile; injectFile])))
             injectFile (lit "export function ...")
             [ExportNamedDeclaration injectDeclaration None]
             (lit "inject") [TSParameterProperty (Identifier (lit "x"))] None).
    + right; left; reflexivity.
    + reflexivity.
    + reflexivity.
    + left; reflexivity.
    + discriminate.
    + reflexivity.
  - apply (proj1 (proj2 (proj2 (@updateApiReadme_fatal_errors packages
                                  (exampleSources [mathFile; brokenFile]))))).
    reflexivity.
Defined.

(** C1 on a catalog whose description holds "$1".  The table to merge
    holds "such as $1.50".  The first run expands "$1" to the text that
    stood between the markers, so that README.md holds "such as ", the old
    region and ".50"; the second run expands it to the text the first run
    put between the markers.  So the text the first run writes is not a
    fixed point of the merge, and the second run writes again. *)
Theorem updateReadme_second_run_writes :
  let packages := examplePackages [] in
  let w0 := exampleWorld [] readmeWithRegion in
  let w1 := snd (updateReadme [] priceCatalog w0) in
  let w2 := snd (updateReadme [] priceCatalog w1) in
  let first := merge [] priceCatalog readmeWithRegion in
  let second := merge [] priceCatalog first in
  occurrences (lit "such as $1.50") (tables [] priceCatalog) = [161]
  /\ occurrences (lit "such as " ++ [LF] ++ lit "old" ++ [LF] ++ lit ".50")
       first = [196]
  /\ first <> second
  /\ writesOf (events w1) = [(README, first)]
  /\ writesOf (events w2) = [(README, first); (README, second)].
Proof.
  intros packages w0 w1 w2 first second.
  split; [vm_compute; reflexivity|].
  split; [vm_compute; reflexivity|].
  split; [apply streq_neq; vm_compute; reflexivity|].
  split; vm_compute; reflexivity.
Qed.

(* ================================================================== *)
(** * Part VI.  Further properties *)
(* ================================================================== *)

(** ** [findLastBlockComment] *)

(** X1.  [findLastBlockComment] answers null exactly when the leading
    comments are null or hold no block comment; otherwise it answers the
    last block comment of the array: a block comment after which only line
    comments stand. *)
Theorem findLastBlockComment_last (comments : option (list Comment)) :
  (findLastBlockComment comments = None
   <-> match comments with
       | None => True
       | Some cs => Forall (fun c => type c = CommentLine) cs
       end)
  /\ (forall found,
         findLastBlockComment comments = Some found ->
         exists before after,
           comments = Some (before ++ found :: after)
           /\ type found = CommentBlock
           /\ Forall (fun c => type c = CommentLine) after).
Proof.
  assert (Hline : forall cs,
             existsb isCommentBlock cs = false
             <-> Forall (fun c => type c = CommentLine) cs).
  { induction cs as [|c cs IH]; simpl.
    - split; [constructor | reflexivity].
    - rewrite orb_false_iff, IH. unfold isCommentBlock.
      split.
      + intros [Hc Hcs]. constructor; [|assumption].
        destruct (type c); [discriminate | reflexivity].
      + intros H. inversion H as [|? ? Hc Hcs]; subst.
        rewrite Hc. auto. }
  split.
  - destruct comments as [cs|]; simpl; [|tauto].
    rewrite lastBlockComment_None. apply Hline.
  - intros found H. destruct comments as [cs|]; simpl in H; [|discriminate].
    destruct (lastBlockComment_Some cs found H)
      as (before & after & -> & Hb & Ha).
    exists before, after. split; [reflexivity|]. split.
    + unfold isCommentBlock in Hb.
      destruct (type found); [reflexivity | discriminate].
    + apply Hline, Ha.
Qed.

(** ** [renderDocNode] *)

Lemma DocNode_forall_ind (P : DocNode -> Prop) :
  (forall content children,
      Forall P children -> P (DocExcerpt content children)) ->
  (forall children, Forall P children -> P (DocContainer children)) ->
  forall docNode, P docNode.
Proof.
  intros Hexcerpt Hcontainer. fix IH 1.
  intros [content children | children];
    [apply Hexcerpt | apply Hcontainer];
    induction children as [|child children IHchildren];
    constructor; solve [apply IH | exact IHchildren].
Qed.

Lemma renderNode_children (children : list DocNode) :
  Forall (fun child => renderNode child = concat (excerpts child)) children ->
  concat (map renderNode children) = concat (flat_map excerpts children).
Proof.
  induction 1 as [|child children Hchild _ IH]; [reflexivity|].
  cbn [map flat_map concat]. rewrite concat_app, Hchild, IH. reflexivity.
Qed.

Lemma renderNode_excerpts (docNode : DocNode) :
  renderNode docNode = concat (excerpts docNode).
Proof.
  induction docNode as [content children IH | children IH]
    using DocNode_forall_ind.
  - change (content ++ concat (map renderNode children)
            = content ++ concat (flat_map excerpts children)).
    f_equal. apply renderNode_children, IH.
  - change (concat (map renderNode children)
            = concat (flat_map excerpts children)).
    apply renderNode_children, IH.
Qed.

(** X2.  [renderDocNode] answers the contents of the excerpts of the tree,
    joined in document order; how the excerpts are grouped under other
    nodes makes no difference, a tree without excerpts renders as the
    empty string, and so does null. *)
Theorem renderDocNode_excerpts :
  (forall docNode,
      renderDocNode (Some docNode) = concat (excerpts docNode))
  /\ (forall before inner after,
         renderDocNode
           (Some (DocContainer (before ++ DocContainer inner :: after)))
         = renderDocNode (Some (DocContainer (before ++ inner ++ after))))
  /\ (forall docNode,
         excerpts docNode = [] -> renderDocNode (Some docNode) = [])
  /\ renderDocNode None = [].
Proof.
  split; [exact renderNode_excerpts|]. split; [|split].
  - intros before inner after. simpl.
    rewrite !map_app, !concat_app. reflexivity.
  - intros docNode H. simpl. rewrite renderNode_excerpts, H. reflexivity.
  - reflexivity.
Qed.

(** [renderDocNode_excerpts] on a summary of three excerpts under two
    levels of containers, and on a tree of containers only. *)
Lemma renderDocNode_excerpts_witness :
  renderDocNode (Some nestedSummary)
  = lit "Adds two numbers." ++ [LF]
  /\ renderDocNode (Some (DocContainer [DocContainer []; DocContainer []]))
     = [].
Proof.
  split.
  - rewrite (proj1 renderDocNode_excerpts nestedSummary). reflexivity.
  - apply (proj1 (proj2 (proj2 renderDocNode_excerpts))). reflexivity.
Defined.

(** ** [extractBrief], continued *)

Lemma replaceLineFeeds_no_LF (t : jsstring) : ~ In LF (replaceLineFeeds t).
Proof.
  unfold replaceLineFeeds. intros H. apply in_map_iff in H.
  destruct H as (c & Hc & _).
  destruct (N.eqb_spec c LF); [discriminate | congruence].
Qed.

Lemma replaceLineFeeds_head (t : jsstring) :
  noLeadingWhiteSpace t -> noLeadingWhiteSpace (replaceLineFeeds t).
Proof.
  destruct t as [|c t]; simpl; [auto|]. intros H.
  destruct (N.eqb_spec c LF) as [->|_]; [discriminate H | exact H].
Qed.

Lemma replaceLineFeeds_rev (t : jsstring) :
  rev (replaceLineFeeds t) = replaceLineFeeds (rev t).
Proof. unfold replaceLineFeeds. symmetry. apply map_rev. Qed.

Lemma replaceLineFeeds_id (t : jsstring) :
  ~ In LF t -> replaceLineFeeds t = t.
Proof.
  induction t as [|c t IH]; simpl; [reflexivity|]. intros H.
  destruct (N.eqb_spec c LF) as [->|_].
  - exfalso. apply H. left; reflexivity.
  - f_equal. apply IH. intros Hin. apply H. right; exact Hin.
Qed.

Lemma trimStart_id (t : jsstring) : noLeadingWhiteSpace t -> trimStart t = t.
Proof. destruct t as [|c t]; simpl; [reflexivity|]. intros ->. reflexivity. Qed.

Lemma trim_id (t : jsstring) :
  noLeadingWhiteSpace t -> noLeadingWhiteSpace (rev t) -> trim t = t.
Proof.
  intros Hh Hl. unfold trim, trimEnd.
  rewrite (trimStart_id t Hh), (trimStart_id (rev t) Hl).
  apply rev_involutive.
Qed.

Lemma trimStart_length (t : jsstring) : length (trimStart t) <= length t.
Proof.
  induction t as [|c t IH]; simpl; [lia|].
  destruct (isWhiteSpace c); simpl; lia.
Qed.

Lemma trim_length (t : jsstring) : length (trim t) <= length t.
Proof.
  unfold trim, trimEnd. rewrite length_rev.
  etransitivity; [apply trimStart_length|]. rewrite length_rev.
  apply trimStart_length.
Qed.

Lemma substring_length (s : jsstring) (from to : Z) :
  length (substring s from to) <= length s.
Proof.
  unfold substring. rewrite length_firstn, length_skipn. lia.
Qed.

(** The brief of any text has the shape [isBrief] and is no longer. *)
Lemma brief_shape (p : jsstring) :
  isBrief (replaceLineFeeds (trim p))
  /\ length (replaceLineFeeds (trim p)) <= length p.
Proof.
  destruct (trim_Trimmed p) as (l & r & _ & _ & _ & Hh & Hl).
  split; [split; [|split]|].
  - apply replaceLineFeeds_no_LF.
  - apply replaceLineFeeds_head, Hh.
  - rewrite replaceLineFeeds_rev. apply replaceLineFeeds_head, Hl.
  - unfold replaceLineFeeds. rewrite length_map. apply trim_length.
Qed.

Lemma extractBrief_isBrief (summary : jsstring) :
  isBrief (extractBrief summary)
  /\ length (extractBrief summary) <= length summary.
Proof.
  unfold extractBrief.
  destruct (indexOf summary PARAGRAPH_BREAK >? 0)%Z.
  - destruct (brief_shape
                (substring summary 0 (indexOf summary PARAGRAPH_BREAK)))
      as [H Hlen].
    split; [exact H|].
    etransitivity; [exact Hlen | apply substring_length].
  - apply brief_shape.
Qed.

Lemma extractBrief_fixed (d : jsstring) : isBrief d -> extractBrief d = d.
Proof.
  intros (Hlf & Hh & Hl).
  rewrite extractBrief_whole.
  - rewrite (trim_id d Hh Hl). apply replaceLineFeeds_id, Hlf.
  - unfold indexOf.
    destruct (indexOfFrom_spec PARAGRAPH_BREAK d 0)
      as [[-> _] | (n & _ & (a & b & -> & _) & _)]; [lia|].
    exfalso. apply Hlf. apply in_or_app. right. left. reflexivity.
Qed.

(** X3.  Whatever the summary, the description [extractBrief] answers is
    one line (it holds no line feed), has no white space at either end,
    and is no longer than the summary. *)
Theorem extractBrief_one_line (summary : jsstring) :
  ~ In LF (extractBrief summary)
  /\ noLeadingWhiteSpace (extractBrief summary)
  /\ noLeadingWhiteSpace (rev (extractBrief summary))
  /\ length (extractBrief summary) <= length summary.
Proof.
  destruct (extractBrief_isBrief summary) as [(H1 & H2 & H3) H4]. auto.
Qed.

(** X4.  [extractBrief] is idempotent: a description is its own brief. *)
Theorem extractBrief_idempotent (summary : jsstring) :
  extractBrief (extractBrief summary) = extractBrief summary.
Proof. apply extractBrief_fixed, extractBrief_isBrief. Qed.

(** [findLastBlockComment_last] on two block comments among line
    comments: the second one is found. *)
Lemma findLastBlockComment_last_witness :
  let line := {| type := CommentLine; value := lit " note" |} in
  let first := {| type := CommentBlock; value := lit "* Old. " |} in
  let second := {| type := CommentBlock; value := lit "* New. " |} in
  exists before after,
    Some [line; first; line; second; line]
    = Some (before ++ second :: after)
    /\ type second = CommentBlock
    /\ Forall (fun c => type c = CommentLine) after.
Proof.
  intros line first second.
  apply (proj2 (findLastBlockComment_last
                  (Some [line; first; line; second; line]))).
  reflexivity.
Defined.

(** ** [sortByCategory] and the sorted rows, continued *)

Lemma sortByCategory_zero (a b : Entry) :
  sortByCategory a b = 0%Z
  <-> category a = category b /\ display a = display b.
Proof.
  destruct (sortByCategory_spec a b) as [[Hab H] | [[Hab H] | [Hab H]]];
    rewrite Hab.
  - split; [discriminate|]. intros H'. exfalso.
    eapply keyLt_irrefl; eassumption.
  - split; [intros _; exact H | reflexivity].
  - split; [discriminate|]. intros [Hc Hd]. exfalso.
    eapply keyLt_irrefl; [exact H|]. split; auto.
Qed.

(** X5.  [sortByCategory] is a consistent comparator: swapping the
    arguments negates the answer, the answer is 0 exactly for entries of
    the same category and identifier, and "not after" is transitive.  The
    order [sort] produces with it is therefore the same on every engine. *)
Theorem sortByCategory_consistent :
  (forall a b, sortByCategory b a = (- sortByCategory a b)%Z)
  /\ (forall a b,
         sortByCategory a b = 0%Z
         <-> category a = category b /\ display a = display b)
  /\ (forall a b c,
         (sortByCategory a b <= 0)%Z -> (sortByCategory b c <= 0)%Z ->
         (sortByCategory a c <= 0)%Z).
Proof.
  split; [|split].
  - intros a b.
    destruct (sortByCategory_spec a b) as [[Hab H] | [[Hab H] | [Hab H]]],
             (sortByCategory_spec b a) as [[Hba H'] | [[Hba H'] | [Hba H']]];
      rewrite Hab, Hba; try reflexivity; exfalso;
      first [ eapply keyLt_asym; eassumption
            | eapply keyLt_irrefl; [exact H|]; destruct H'; split; auto
            | eapply keyLt_irrefl; [exact H'|]; destruct H; split; auto ].
  - exact sortByCategory_zero.
  - exact keyLe_trans.
Qed.

Lemma sameKeyAs_iff (k e : Entry) : sameKeyAs k e = true <-> sameKey e k.
Proof.
  unfold sameKeyAs, sameKey. rewrite andb_true_iff, !streq_eq. tauto.
Qed.

Lemma insertSorted_filter (k x : Entry) (l : list Entry) :
  filter (sameKeyAs k) (insertSorted sortByCategory x l)
  = filter (sameKeyAs k) (x :: l).
Proof.
  induction l as [|y l IH]; [reflexivity|].
  cbn [insertSorted].
  destruct (Z.leb_spec (sortByCategory x y) 0) as [Hle | Hgt];
    [reflexivity|].
  cbn [filter] in *. rewrite IH.
  destruct (sameKeyAs k x) eqn:Ex, (sameKeyAs k y) eqn:Ey; try reflexivity.
  (* [y] stands before [x] and has its key: impossible *)
  exfalso. apply sameKeyAs_iff in Ex, Ey.
  destruct Ex as [Hxc Hxd], Ey as [Hyc Hyd].
  assert (H0 : sortByCategory x y = 0%Z).
  { apply sortByCategory_zero. split; congruence. }
  lia.
Qed.

(** X6.  Sorting neither drops nor repeats an entry (the sorted array is a
    permutation of the catalog, so the table has one row per entry after
    its header), and it is stable: the entries of one category and
    identifier stand in the order in which they were pushed. *)
Theorem tableRows_stable (header : list jsstring) (entries : list Entry) :
  Permutation (sort sortByCategory entries) entries
  /\ length (tableRows header entries) = S (length entries)
  /\ forall k,
       filter (sameKeyAs k) (sort sortByCategory entries)
       = filter (sameKeyAs k) entries.
Proof.
  split; [apply sort_Permutation|]. split.
  - unfold tableRows. cbn [length]. rewrite length_map.
    f_equal. apply Permutation_length, sort_Permutation.
  - intros k. induction entries as [|x entries IH]; [reflexivity|].
    cbn [sort fold_right]. fold (sort sortByCategory entries).
    rewrite insertSorted_filter. cbn [filter]. rewrite IH. reflexivity.
Qed.

(** ** Statements the task passes over *)

(** X7.  A top-level statement that is not a named export of a function,
    an interface or a type alias with a name is passed over in silence:
    the catalogs and the world stay as they are and no exception is
    thrown.  In particular the parameters of a function without a name are
    never rendered. *)
Theorem visitStatement_passes_over {packages : Packages}
    (file cat : jsstring) (node : Statement) (c : Catalog) (w : World) :
  (isConsidered node = false ->
   visitStatement file cat node c w = (Ok c, w))
  /\ (isConsidered node = true
      <-> exists declaration leadingComments name,
            node = ExportNamedDeclaration (Some declaration) leadingComments
            /\ name <> []
            /\ (declaration = TSInterfaceDeclaration (Some name)
                \/ declaration = TSTypeAliasDeclaration (Some name)
                \/ exists params,
                     declaration = FunctionDeclaration (Some name) params)).
Proof.
  split.
  - destruct node as [declaration leadingComments | kind]; cbn [isConsidered].
    + intros H. apply negb_false_iff in H.
      unfold visitStatement. rewrite H. reflexivity.
    + reflexivity.
  - split.
    + destruct node as [[[[name|] params | [name|] | [name|] | kind]|] lc | kind];
        cbn; try discriminate;
        (destruct name as [|ch name]; cbn; [discriminate|]); intros _.
      * eexists _, lc, (ch :: name). split; [reflexivity|].
        split; [discriminate|]. right; right. eexists; reflexivity.
      * eexists _, lc, (ch :: name). split; [reflexivity|].
        split; [discriminate|]. left; reflexivity.
      * eexists _, lc, (ch :: name). split; [reflexivity|].
        split; [discriminate|]. right; left; reflexivity.
    + intros (declaration & lc & name & -> & Hname & [-> | [-> | [params ->]]]);
        destruct name; try congruence; reflexivity.
Qed.

(** [visitStatement_passes_over] on an export of a function without a
    name whose parameter is a parameter property, and on a variable. *)
Lemma visitStatement_passes_over_witness :
  let packages := examplePackages [] in
  let w := exampleSources [mathFile] in
  let unnamed :=
    ExportNamedDeclaration
      (Some (FunctionDeclaration None
               [TSParameterProperty (Identifier (lit "x"))])) None in
  let variable :=
    ExportNamedDeclaration (Some (OtherDeclaration (lit "VariableDeclaration")))
      None in
  visitStatement mathFile (lit "math") unnamed emptyCatalog w
  = (Ok emptyCatalog, w)
  /\ visitStatement mathFile (lit "math") variable emptyCatalog w
     = (Ok emptyCatalog, w).
Proof.
  intros packages w unnamed variable. split.
  - apply (proj1 (@visitStatement_passes_over packages mathFile (lit "math")
                    unnamed emptyCatalog w)).
    reflexivity.
  - apply (proj1 (@visitStatement_passes_over packages mathFile (lit "math")
                    variable emptyCatalog w)).
    reflexivity.
Defined.

(** ** The merge, continued *)

Lemma forallb_occurrences (p readme : jsstring) (test : nat -> bool) :
  forallb test (occurrences p readme) = true ->
  forall n, OccursAt p readme n -> test n = true.
Proof.
  intros H n Hn. rewrite forallb_forall in H.
  apply H, In_occurrences, Hn.
Qed.

Lemma occurrences_forallb (p readme : jsstring) (test : nat -> bool) :
  (forall n, OccursAt p readme n -> test n = true) ->
  forallb test (occurrences p readme) = true.
Proof.
  intros H. apply forallb_forall. intros n Hn.
  apply H, In_occurrences, Hn.
Qed.

Lemma writesOf_app (a b : list Event) :
  writesOf (a ++ b) = writesOf a ++ writesOf b.
Proof. apply flat_map_app. Qed.

Section More_merge.

Context {packages : Packages}.

#[local] Opaque TOKEN_START TOKEN_END.

Lemma merge_region_checked (exportedTypes exportedFunctions : list Entry)
    (pre region post : jsstring) :
  let readme := pre ++ TOKEN_START ++ region ++ TOKEN_END ++ post in
  region <> [] ->
  forallb (fun j => length pre <=? j) (occurrences TOKEN_START readme) = true ->
  forallb (fun m => m <=? length pre + length TOKEN_START + length region)
    (occurrences TOKEN_END readme) = true ->
  merge exportedTypes exportedFunctions readme
  = pre ++ TOKEN_START ++ [LF; LF]
      ++ GetSubstitution (TOKEN_START ++ region ++ TOKEN_END) readme
           (length pre) [Some region]
           (tables exportedTypes exportedFunctions)
      ++ [LF; LF] ++ TOKEN_END ++ post.
Proof.
  intros readme Hne Hfirst Hlast.
  apply merge_region; [exact Hne | |].
  - intros j Hj. apply Nat.leb_le.
    exact (forallb_occurrences _ _ _ Hfirst j Hj).
  - intros m Hm. apply Nat.leb_le.
    exact (forallb_occurrences _ _ _ Hlast m Hm).
Qed.

(** X8.  The region replaced runs from the first start marker to the last
    end marker of README.md: when at least one code unit lies between
    them, everything between them goes, further markers included, and the
    text before the first start marker and after the last end marker is
    copied.  Whenever the merge changes the text, README.md is of this
    form. *)
Theorem merge_first_to_last (exportedTypes exportedFunctions : list Entry) :
  (forall pre region post,
      let readme := pre ++ TOKEN_START ++ region ++ TOKEN_END ++ post in
      region <> [] ->
      forallb (fun j => length pre <=? j) (occurrences TOKEN_START readme)
      = true ->
      forallb (fun m => m <=? length pre + length TOKEN_START + length region)
        (occurrences TOKEN_END readme) = true ->
      merge exportedTypes exportedFunctions readme
      = pre ++ TOKEN_START ++ [LF; LF]
          ++ GetSubstitution (TOKEN_START ++ region ++ TOKEN_END) readme
               (length pre) [Some region]
               (tables exportedTypes exportedFunctions)
          ++ [LF; LF] ++ TOKEN_END ++ post)
  /\ (forall readme,
         merge exportedTypes exportedFunctions readme <> readme ->
         exists pre region post,
           readme = pre ++ TOKEN_START ++ region ++ TOKEN_END ++ post
           /\ region <> []
           /\ forallb (fun j => length pre <=? j)
                (occurrences TOKEN_START readme) = true
           /\ forallb
                (fun m => m <=? length pre + length TOKEN_START + length region)
                (occurrences TOKEN_END readme) = true).
Proof.
  split.
  - intros pre region post readme. apply merge_region_checked.
  - intros readme Hchanged.
    destruct (merge_cases exportedTypes exportedFunctions readme)
      as [E | (pre & region & post & E & Hne & Hfirst & Hlast)];
      [contradiction|].
    exists pre, region, post. split; [exact E|]. split; [exact Hne|]. split.
    + apply occurrences_forallb. intros j Hj. apply Nat.leb_le, Hfirst, Hj.
    + apply occurrences_forallb. intros m Hm. apply Nat.leb_le, Hlast, Hm.
Qed.

Lemma merge_nothing (pre region post : jsstring) :
  let readme := pre ++ TOKEN_START ++ region ++ TOKEN_END ++ post in
  region <> [] ->
  forallb (fun j => length pre <=? j) (occurrences TOKEN_START readme) = true ->
  forallb (fun m => m <=? length pre + length TOKEN_START + length region)
    (occurrences TOKEN_END readme) = true ->
  merge [] [] readme
  = pre ++ TOKEN_START ++ [LF; LF; LF; LF] ++ TOKEN_END ++ post.
Proof.
  intros readme Hne Hfirst Hlast. unfold readme.
  rewrite (merge_region_checked [] [] pre region post Hne Hfirst Hlast).
  reflexivity.
Qed.

(** X9.  With two empty catalogs no table is rendered at all
    ([markdownTable] is not called): the text between the markers becomes
    two blank lines, and the merged text is the text read exactly when
    README.md already held those four line feeds between the markers. *)
Theorem merge_empty_catalogs :
  tables [] [] = []
  /\ forall pre region post,
       let readme := pre ++ TOKEN_START ++ region ++ TOKEN_END ++ post in
       region <> [] ->
       forallb (fun j => length pre <=? j) (occurrences TOKEN_START readme)
       = true ->
       forallb (fun m => m <=? length pre + length TOKEN_START + length region)
         (occurrences TOKEN_END readme) = true ->
       merge [] [] readme
       = pre ++ TOKEN_START ++ [LF; LF; LF; LF] ++ TOKEN_END ++ post
       /\ (merge [] [] readme = readme <-> region = [LF; LF; LF; LF]).
Proof.
  split; [reflexivity|].
  intros pre region post readme Hne Hfirst Hlast.
  assert (E : merge [] [] readme
              = pre ++ TOKEN_START ++ [LF; LF; LF; LF] ++ TOKEN_END ++ post)
    by exact (merge_nothing pre region post Hne Hfirst Hlast).
  split; [exact E|]. rewrite E. unfold readme. split.
  - intros H. apply app_inv_head in H. apply app_inv_head in H.
    apply app_inv_tail in H. symmetry. exact H.
  - intros ->. reflexivity.
Qed.

(** X10.  When the rendered tables hold no [$], a second run of
    [updateReadme] on what the first run left only reads README.md: it
    writes nothing and throws nothing. *)
Theorem updateReadme_twice (exportedTypes exportedFunctions : list Entry)
    (w : World) (readme : jsstring) :
  ~ In DOLLAR (tables exportedTypes exportedFunctions) ->
  fs w README = Some readme ->
  let w1 := snd (updateReadme exportedTypes exportedFunctions w) in
  updateReadme exportedTypes exportedFunctions w1
  = (Ok tt, log (ReadFile README) w1).
Proof.
  intros Hplain Hfs w1.
  assert (Hfs1 : fs w1 README
                 = Some (merge exportedTypes exportedFunctions readme))
    by (apply updateReadme_content, Hfs).
  apply (updateReadme_run exportedTypes exportedFunctions w1 _ Hfs1).
  apply merge_idempotent, Hplain.
Qed.

(** X11.  Whatever the sources and README.md hold and however the run
    ends, [updateApiReadme] leaves every file other than README.md as it
    was and writes at most once: either nothing is written, or README.md
    existed and is written once, with a text that differs from the one it
    held. *)
Theorem updateApiReadme_writes_once (w : World) :
  let w' := snd (updateApiReadme w) in
  (forall p, streq p README = false -> fs w' p = fs w p)
  /\ exists evs,
       events w' = events w ++ evs
       /\ (writesOf evs = [] /\ fs w' README = fs w README
           \/ exists old new,
                fs w README = Some old /\ new <> old
                /\ writesOf evs = [(README, new)]
                /\ fs w' README = Some new).
Proof.
  intros w'. subst w'. unfold updateApiReadme, bind.
  pose proof (collectExports_Extends w) as Hext.
  destruct (collectExports w) as [[c|e] w1]; cbn [snd] in *;
    destruct Hext as (_ & Hfs & evs & Hev & Hall);
    assert (Hw : writesOf evs = [])
      by (eapply writesOf_scanning; eassumption).
  - destruct (fs w1 README) as [old|] eqn:Eold.
    + destruct (updateReadme_run (exportedTypes c) (exportedFunctions c)
                  w1 old Eold) as [Hsame Hdiff].
      destruct (list_eq_dec N.eq_dec
                  (merge (exportedTypes c) (exportedFunctions c) old) old)
        as [E|E].
      * rewrite (Hsame E). cbn [snd log fs events]. split.
        -- intros p _. rewrite Hfs. reflexivity.
        -- exists (evs ++ [ReadFile README]). split.
           ++ rewrite Hev, app_assoc. reflexivity.
           ++ left. rewrite writesOf_app, Hw, Hfs. split; reflexivity.
      * rewrite (Hdiff E). cbn [snd fs events]. split.
        -- intros p Hp. rewrite Hp, Hfs. reflexivity.
        -- exists (evs ++ [ReadFile README;
                           WriteFile README
                             (merge (exportedTypes c) (exportedFunctions c)
                                old)]).
           split; [rewrite Hev, app_assoc; reflexivity|].
           right. exists old, (merge (exportedTypes c) (exportedFunctions c) old).
           rewrite <- Hfs, Eold, writesOf_app, Hw, streq_refl.
           repeat split; auto.
    + unfold updateReadme, bind, readFileSync. rewrite Eold.
      cbn [snd log fs events]. split.
      * intros p _. rewrite Hfs. reflexivity.
      * exists (evs ++ [ReadFile README]). split.
        -- rewrite Hev, app_assoc. reflexivity.
        -- left. rewrite writesOf_app, Hw, Hfs. split; reflexivity.
  - split.
    + intros p _. rewrite Hfs. reflexivity.
    + exists evs. split; [exact Hev|]. left. rewrite Hfs. auto.
Qed.

(** X12.  A source file that cannot be read makes the run throw before
    README.md is touched: no file is changed and nothing is written. *)
Theorem updateApiReadme_unreadable_source (w : World) (file : jsstring) :
  In file (sourceFiles w) ->
  fs w file = None ->
  let run := updateApiReadme w in
  isThrow (fst run) = true
  /\ fs (snd run) = fs w
  /\ writesOf (events (snd run)) = writesOf (events w).
Proof.
  intros Hin Hfs run.
  assert (Hthrow : isThrow (fst (collectExports w)) = true).
  { unfold collectExports.
    apply forEach_throws with (I := fun w' => fs w' = fs w) (x := file);
      try assumption; try reflexivity.
    - intros y acc w0 Hw0.
      destruct (visitFile_Extends (y :: nil) y acc w0 (or_introl eq_refl))
        as (_ & Hf & _). congruence.
    - intros acc w0 Hw0. unfold visitFile, bind, readFileSync.
      rewrite Hw0, Hfs. reflexivity. }
  pose proof (collectExports_Extends w) as Hext.
  subst run. unfold updateApiReadme, bind.
  destruct (collectExports w) as [[c|e] w1]; [discriminate|].
  cbn [fst snd] in *. destruct Hext as (_ & Hf & evs & Hev & Hall).
  split; [reflexivity|]. split; [exact Hf|].
  rewrite Hev, writesOf_app, (writesOf_scanning _ _ Hall), app_nil_r.
  reflexivity.
Qed.

End More_merge.

(** [merge_first_to_last] on a README.md with two marked regions: the
    text from the first start marker to the second end marker is
    replaced. *)
Lemma merge_first_to_last_witness :
  let packages := examplePackages [] in
  merge [] mathCatalog twoRegions
  = (lit "# API" ++ [LF]) ++ TOKEN_START ++ [LF; LF]
      ++ GetSubstitution
           (TOKEN_START
              ++ (lit "one" ++ TOKEN_END ++ lit " and " ++ TOKEN_START
                    ++ lit "two")
              ++ TOKEN_END)
           twoRegions 6
           [Some (lit "one" ++ TOKEN_END ++ lit " and " ++ TOKEN_START
                    ++ lit "two")]
           (tables [] mathCatalog)
      ++ [LF; LF] ++ TOKEN_END ++ [LF].
Proof.
  intros packages.
  apply (proj1 (@merge_first_to_last packages [] mathCatalog)
           (lit "# API" ++ [LF])
           (lit "one" ++ TOKEN_END ++ lit " and " ++ TOKEN_START ++ lit "two")
           [LF]).
  - discriminate.
  - reflexivity.
  - reflexivity.
Defined.

(** [merge_empty_catalogs] on [readmeWithRegion]. *)
Lemma merge_empty_catalogs_witness :
  let packages := examplePackages [] in
  merge [] [] readmeWithRegion
  = (lit "# API" ++ [LF]) ++ TOKEN_START ++ [LF; LF; LF; LF] ++ TOKEN_END
      ++ [LF] ++ lit "License: MIT".
Proof.
  intros packages.
  apply (proj2 (@merge_empty_catalogs packages)
           (lit "# API" ++ [LF]) ([LF] ++ lit "old" ++ [LF])
           ([LF] ++ lit "License: MIT")).
  - discriminate.
  - reflexivity.
  - reflexivity.
Defined.

(** [updateReadme_twice] on [readmeWithRegion] and [mathCatalog]. *)
Lemma updateReadme_twice_witness :
  let packages := examplePackages [] in
  let w1 := snd (updateReadme [] mathCatalog
                   (exampleWorld [] readmeWithRegion)) in
  updateReadme [] mathCatalog w1 = (Ok tt, log (ReadFile README) w1).
Proof.
  intros packages.
  apply (@updateReadme_twice packages [] mathCatalog
           (exampleWorld [] readmeWithRegion) readmeWithRegion).
  - apply not_In_existsb. reflexivity.
  - reflexivity.
Defined.

(** [updateApiReadme_unreadable_source] on a package whose second source
    file is not on the disk. *)
Lemma updateApiReadme_unreadable_source_witness :
  let packages := examplePackages exampleProgram in
  let w := {| sourceFiles := [mathFile; lit "src/gone.ts"];
              fs := fs (exampleSources [mathFile]);
              events := [] |} in
  isThrow (fst (updateApiReadme w)) = true
  /\ fs (snd (updateApiReadme w)) = fs w
  /\ writesOf (events (snd (updateApiReadme w))) = writesOf (events w).
Proof.
  intros packages w.
  apply (@updateApiReadme_unreadable_source packages w (lit "src/gone.ts")).
  - right; left; reflexivity.
  - reflexivity.
Defined.

(** ** The catalogs, continued *)

Lemma warningsOf_app (a b : list Event) :
  warningsOf (a ++ b) = warningsOf a ++ warningsOf b.
Proof. apply flat_map_app. Qed.

Section More_pipeline.

Context {packages : Packages}.

Lemma visitStatement_count (file cat : jsstring) (node : Statement)
    (c c' : Catalog) (w w' : World) :
  visitStatement file cat node c w = (Ok c', w') ->
  entryCount c' + length (warningsOf (events w'))
  = entryCount c + length (warningsOf (events w))
      + (if isConsidered node then 1 else 0).
Proof.
  destruct node as [declaration leadingComments | kind];
    cbn [visitStatement isConsidered].
  2:{ intros H; injection H as <- <-. lia. }
  destruct (isEmpty (getExportedName declaration)); cbn [negb].
  { intros H; injection H as <- <-. lia. }
  unfold bind, liftResult.
  destruct (identifier (getExportedName declaration) declaration)
    as [ident|e]; [|discriminate].
  destruct (findLastBlockComment leadingComments) as [commentBlock|].
  - destruct (isFunctionDeclaration declaration);
      intros H; injection H as <- <-; unfold entryCount;
      cbn [exportedFunctions exportedTypes]; rewrite length_app;
      cbn [length]; lia.
  - unfold consoleWarn, ret. cbv beta iota.
    intros H; injection H as <- <-. unfold log; cbn [events].
    rewrite warningsOf_app, length_app. cbn. lia.
Qed.

Lemma forEach_visitStatement_count (file cat : jsstring)
    (body : list Statement) :
  forall (c c' : Catalog) (w w' : World),
    forEach (visitStatement file cat) body c w = (Ok c', w') ->
    entryCount c' + length (warningsOf (events w'))
    = entryCount c + length (warningsOf (events w))
        + length (filter isConsidered body).
Proof.
  induction body as [|node body IH]; intros c c' w w'; cbn [forEach filter].
  - intros H; injection H as <- <-. cbn. lia.
  - unfold bind.
    destruct (visitStatement file cat node c w) as [[c1|e] w1] eqn:E;
      [|discriminate].
    intros H. apply IH in H. apply visitStatement_count in E.
    destruct (isConsidered node); cbn [length]; lia.
Qed.

Lemma visitFile_count (file : jsstring) (c c' : Catalog) (w w' : World) :
  visitFile file c w = (Ok c', w') ->
  exists body,
    parsedAs w file body
    /\ entryCount c' + length (warningsOf (events w'))
       = entryCount c + length (warningsOf (events w))
           + length (filter isConsidered body).
Proof.
  unfold visitFile, bind, readFileSync, liftResult.
  destruct (fs w file) as [content|] eqn:Efs; [|discriminate].
  destruct (babelParse file content) as [body|e] eqn:Eparse; [|discriminate].
  intros H. exists body. split; [exists content; auto|].
  apply forEach_visitStatement_count in H. rewrite H.
  unfold log; cbn [events]. rewrite warningsOf_app, length_app. cbn. lia.
Qed.

Lemma forEach_visitFile_count (w : World) (files : list jsstring) :
  forall (c c' : Catalog) (w0 w' : World),
    fs w0 = fs w ->
    forEach visitFile files c w0 = (Ok c', w') ->
    exists bodies,
      Forall2 (parsedAs w) files bodies
      /\ entryCount c' + length (warningsOf (events w'))
         = entryCount c + length (warningsOf (events w0))
             + length (filter isConsidered (concat bodies)).
Proof.
  induction files as [|file files IH]; intros c c' w0 w' Hfs; cbn [forEach].
  - intros H; injection H as <- <-. exists []. split; [constructor|].
    cbn. lia.
  - unfold bind.
    destruct (visitFile file c w0) as [[c1|e] w1] eqn:E; [|discriminate].
    intros H.
    assert (Hfs1 : fs w1 = fs w).
    { destruct (visitFile_Extends [file] file c w0 (or_introl eq_refl))
        as (_ & Hf & _). rewrite E in Hf. cbn in Hf. congruence. }
    destruct (IH _ _ _ _ Hfs1 H) as (bodies & Hall & Hcount).
    destruct (visitFile_count _ _ _ _ _ E) as (body & Hparsed & Hcount1).
    exists (body :: bodies). split.
    + constructor; [|exact Hall].
      destruct Hparsed as (content & H1 & H2). exists content.
      rewrite <- Hfs. auto.
    + cbn [concat]. rewrite filter_app, length_app. lia.
Qed.

(** X13.  In a run that builds the catalogs without an exception, every
    source file was read and parsed, and every named export of a function,
    an interface or a type alias gave exactly one catalog entry or exactly
    one warning: the entries of the two catalogs and the warnings of the
    run together are as many as those exports. *)
Theorem collectExports_accounts (w w' : World) (c : Catalog) :
  collectExports w = (Ok c, w') ->
  exists bodies,
    Forall2 (parsedAs w) (sourceFiles w) bodies
    /\ entryCount c + length (warningsOf (events w'))
       = length (warningsOf (events w))
           + length (filter isConsidered (concat bodies)).
Proof.
  unfold collectExports. intros H.
  destruct (forEach_visitFile_count w (sourceFiles w) _ _ w w' eq_refl H)
    as (bodies & Hall & Hcount).
  exists bodies. split; [exact Hall|]. rewrite Hcount. reflexivity.
Qed.

(** *** The shape of the entries *)

Lemma forEach_invariant {A S} (f : A -> S -> M S) (I : S -> Prop)
    (xs : list A) :
  (forall x acc w acc' w',
      In x xs -> I acc -> f x acc w = (Ok acc', w') -> I acc') ->
  forall acc w acc' w',
    I acc -> forEach f xs acc w = (Ok acc', w') -> I acc'.
Proof.
  induction xs as [|x xs IH]; intros Hf acc w acc' w' Hacc; cbn [forEach].
  - intros H; injection H as <- _. exact Hacc.
  - unfold bind. destruct (f x acc w) as [[acc1|e] w1] eqn:E; [|discriminate].
    apply IH.
    + intros y a0 w0 a1 w2 Hy. apply Hf. right; exact Hy.
    + eapply Hf; [left; reflexivity | exact Hacc | exact E].
Qed.

Lemma identifier_shape (declaration : option Declaration) (ident : jsstring) :
  identifier (getExportedName declaration) declaration = Ok ident ->
  if isFunctionDeclaration declaration
  then exists rendered,
         ident = [BACKTICK]
                   ++ signature (getExportedName declaration) rendered
                   ++ [BACKTICK]
  else ident = getExportedName declaration.
Proof.
  destruct declaration as [[id params | id | id | kind]|];
    cbn [isFunctionDeclaration]; unfold identifier;
    try (intros H; injection H as <-; reflexivity).
  destruct (mapResult renderParamNode params) as [rendered|e];
    [|discriminate].
  intros H; injection H as <-. exists rendered. reflexivity.
Qed.

Let wellFormed (files : list jsstring) (c : Catalog) : Prop :=
  Forall (entryOf files true) (exportedFunctions c)
  /\ Forall (entryOf files false) (exportedTypes c).

Lemma visitStatement_wellFormed (files : list jsstring) (file : jsstring)
    (node : Statement) (c c' : Catalog) (w w' : World) :
  In file files ->
  wellFormed files c ->
  visitStatement file (basename file) node c w = (Ok c', w') ->
  wellFormed files c'.
Proof.
  intros Hin [Hf Ht].
  destruct node as [declaration leadingComments | kind];
    cbn [visitStatement].
  2:{ intros H; injection H as <- _. split; assumption. }
  destruct (isEmpty (getExportedName declaration)) eqn:Ename.
  { intros H; injection H as <- _. split; assumption. }
  unfold bind, liftResult.
  destruct (identifier (getExportedName declaration) declaration)
    as [ident|e] eqn:Eident; [|discriminate].
  apply identifier_shape in Eident.
  assert (Hname : getExportedName declaration <> [])
    by (intros E; rewrite E in Ename; discriminate).
  destruct (findLastBlockComment leadingComments) as [commentBlock|].
  - cbv zeta.
    assert (Hentry : forall descr,
               descr = extractBrief
                         (renderDocNode
                            (Some (tsdocSummary
                                     (lit "/*" ++ value commentBlock
                                        ++ lit "*/")))) ->
               entryOf files (isFunctionDeclaration declaration)
                 (basename file, ident, descr)).
    { intros descr ->. split; [exists file; auto|].
      split; [apply extractBrief_isBrief|].
      exists (getExportedName declaration). split; [exact Hname|].
      exact Eident. }
    specialize (Hentry _ eq_refl).
    destruct (isFunctionDeclaration declaration);
      intros H; injection H as <- _; split;
      cbn [exportedFunctions exportedTypes]; try assumption;
      apply Forall_app; split; try assumption;
      apply Forall_cons; [exact Hentry | apply Forall_nil
                         | exact Hentry | apply Forall_nil].
  - cbn. intros H; injection H as <- _. split; assumption.
Qed.

(** X14.  Every entry of the catalogs a run builds has the base name of a
    source file as its category and a description of one line without
    white space at either end; the entries of [exportedFunctions] show a
    signature inside a code span, those of [exportedTypes] a bare,
    non-empty name. *)
Theorem collectExports_entries (w w' : World) (c : Catalog) :
  collectExports w = (Ok c, w') ->
  Forall (entryOf (sourceFiles w) true) (exportedFunctions c)
  /\ Forall (entryOf (sourceFiles w) false) (exportedTypes c).
Proof.
  unfold collectExports. intros H.
  apply (forEach_invariant visitFile (wellFormed (sourceFiles w))
           (sourceFiles w)) in H; [exact H | | split; constructor].
  intros file acc w0 acc' w1 Hin Hacc. unfold visitFile, bind, readFileSync.
  destruct (fs w0 file) as [content|]; [|discriminate].
  unfold liftResult.
  destruct (babelParse file content) as [body|e]; [|discriminate].
  apply forEach_invariant; [|exact Hacc].
  intros node a0 w2 a1 w3 _ Ha0.
  apply visitStatement_wellFormed; assumption.
Qed.

End More_pipeline.

(** [collectExports_accounts] and [collectExports_entries] on a package of
    one file with a documented function. *)
Lemma collectExports_accounts_witness :
  let packages := examplePackages exampleProgram in
  let w := exampleSources [mathFile] in
  exists bodies,
    Forall2 (parsedAs w) (sourceFiles w) bodies
    /\ 1 + length (warningsOf (events (log (ReadFile mathFile) w)))
       = length (warningsOf (events w))
           + length (filter isConsidered (concat bodies)).
Proof.
  intros packages w.
  apply (@collectExports_accounts packages w (log (ReadFile mathFile) w)
           {| exportedFunctions :=
                [(mathFile, lit "`add(a, b)`", lit "Adds two numbers.")];
              exportedTypes := [] |}).
  reflexivity.
Defined.

Lemma collectExports_entries_witness :
  let packages := examplePackages exampleProgram in
  let w := exampleSources [mathFile] in
  Forall (entryOf (sourceFiles w) true)
    [(mathFile, lit "`add(a, b)`", lit "Adds two numbers.")]
  /\ Forall (entryOf (sourceFiles w) false) [].
Proof.
  intros packages w.
  apply (@collectExports_entries packages w (log (ReadFile mathFile) w)
           {| exportedFunctions :=
                [(mathFile, lit "`add(a, b)`", lit "Adds two numbers.")];
              exportedTypes := [] |}).
  reflexivity.
Defined.

(** ** [findSourceFiles] *)

Section More_locator.

Context {disk : Disk}.

Lemma addPattern_expandPattern (result : list jsstring) (pattern : jsstring) :
  addPattern result pattern
  = match expandPattern pattern with
    | Ok found => Ok (result ++ found)
    | Throw e => Throw e
    end.
Proof.
  unfold expandPattern, addPattern.
  destruct (existsSync pattern).
  - destruct (isDirectory pattern) as [[|]|e]; [|reflexivity|reflexivity].
    destruct (globSync (pattern ++ lit "/**/*.ts")); reflexivity.
  - destruct (globSync pattern); reflexivity.
Qed.

Lemma reduce_addPattern (include : list jsstring) :
  forall result,
    reduceResult addPattern include result
    = match mapResult expandPattern include with
      | Ok found => Ok (result ++ concat found)
      | Throw e => Throw e
      end.
Proof.
  induction include as [|pattern include IH]; intros result;
    cbn [reduceResult mapResult].
  - cbn. rewrite app_nil_r. reflexivity.
  - rewrite addPattern_expandPattern.
    destruct (expandPattern pattern) as [found|e]; [|reflexivity].
    rewrite IH.
    destruct (mapResult expandPattern include) as [rest|e]; [|reflexivity].
    cbn [concat]. rewrite app_assoc. reflexivity.
Qed.

Lemma mapResult_throws {A B} (f : A -> Result B) (xs : list A) (x : A) :
  In x xs -> isThrow (f x) = true -> isThrow (mapResult f xs) = true.
Proof.
  induction xs as [|y xs IH]; intros Hin Hx; [destruct Hin|].
  cbn [mapResult]. destruct (f y) as [b|e] eqn:Ey; [|reflexivity].
  destruct Hin as [-> | Hin]; [rewrite Ey in Hx; discriminate|].
  specialize (IH Hin Hx).
  destruct (mapResult f xs); [discriminate | reflexivity].
Qed.

Lemma mapResult_app {A B} (f : A -> Result B) (xs ys : list A)
    (bs cs : list B) :
  mapResult f xs = Ok bs -> mapResult f ys = Ok cs ->
  mapResult f (xs ++ ys) = Ok (bs ++ cs).
Proof.
  revert bs; induction xs as [|x xs IH]; intros bs Hxs Hys; cbn in *.
  - injection Hxs as <-. exact Hys.
  - destruct (f x) as [b|e]; [|discriminate].
    destruct (mapResult f xs) as [bs'|e]; [|discriminate].
    injection Hxs as <-. rewrite (IH bs' eq_refl Hys). reflexivity.
Qed.

Lemma findSourceFiles_unfold (include : list jsstring) :
  tsconfigInclude = Ok (Some include) ->
  findSourceFiles
  = match mapResult expandPattern include with
    | Ok found => concat found
    | Throw _ => []
    end.
Proof.
  intros H. unfold findSourceFiles. rewrite H, reduce_addPattern.
  destruct (mapResult expandPattern include); reflexivity.
Qed.

(** X15.  When tsconfig.json cannot be loaded, or its [include] is not an
    array, [findSourceFiles] answers the empty list.  Otherwise, when every
    pattern can be expanded, it answers the files of the patterns, pattern
    after pattern in the order of [include] (nothing is sorted, nothing is
    removed: a file named by two patterns is listed twice). *)
Theorem findSourceFiles_in_order :
  (forall include found,
      tsconfigInclude = Ok (Some include) ->
      mapResult expandPattern include = Ok found ->
      findSourceFiles = concat found)
  /\ (forall first second found found',
         tsconfigInclude = Ok (Some (first ++ second)) ->
         mapResult expandPattern first = Ok found ->
         mapResult expandPattern second = Ok found' ->
         findSourceFiles = concat found ++ concat found')
  /\ (tsconfigInclude = Ok None -> findSourceFiles = [])
  /\ (isThrow tsconfigInclude = true -> findSourceFiles = []).
Proof.
  split; [|split; [|split]].
  - intros include found Hinc Hmap.
    rewrite (findSourceFiles_unfold include Hinc), Hmap. reflexivity.
  - intros first second found found' Hinc H1 H2.
    rewrite (findSourceFiles_unfold _ Hinc), (mapResult_app _ _ _ _ _ H1 H2).
    apply concat_app.
  - intros H. unfold findSourceFiles. rewrite H. reflexivity.
  - intros H. unfold findSourceFiles.
    destruct tsconfigInclude; [discriminate | reflexivity].
Qed.

(** X16.  When every pattern of [include] names an existing file that is
    not a directory, [findSourceFiles] answers [include] itself. *)
Theorem findSourceFiles_regular_files (include : list jsstring) :
  tsconfigInclude = Ok (Some include) ->
  Forall (fun p => existsSync p = true /\ isDirectory p = Ok false) include ->
  findSourceFiles = include.
Proof.
  intros Hinc Hall. rewrite (findSourceFiles_unfold include Hinc).
  clear Hinc.
  assert (Hmap : mapResult expandPattern include
                 = Ok (map (fun p => [p]) include)).
  { induction Hall as [|p ps [He Hd] _ IH]; [reflexivity|].
    cbn [mapResult map]. unfold expandPattern at 1, addPattern.
    rewrite He, Hd, IH. reflexivity. }
  rewrite Hmap. clear. induction include as [|p ps IH]; [reflexivity|].
  cbn. f_equal. exact IH.
Qed.

(** X17.  One pattern that cannot be expanded (because [statSync] or
    [glob.sync] throws) empties the whole answer: the files of the other
    patterns are dropped with it, and no exception leaves
    [findSourceFiles]. *)
Theorem findSourceFiles_all_or_nothing (include : list jsstring)
    (pattern : jsstring) :
  tsconfigInclude = Ok (Some include) ->
  In pattern include ->
  isThrow (expandPattern pattern) = true ->
  findSourceFiles = [].
Proof.
  intros Hinc Hin Hthrow. rewrite (findSourceFiles_unfold include Hinc).
  pose proof (mapResult_throws expandPattern include pattern Hin Hthrow) as H.
  destruct (mapResult expandPattern include); [discriminate | reflexivity].
Qed.


End More_locator.

(** [findSourceFiles_in_order] on a file, a directory and the file again. *)
Lemma findSourceFiles_in_order_witness :
  let disk :=
    exampleDisk (Ok (Some [lit "a.ts"; lit "src"; lit "a.ts"])) in
  findSourceFiles
  = concat [[lit "a.ts"]; [lit "src/b.ts"; lit "src/c.ts"]; [lit "a.ts"]].
Proof.
  intros disk.
  apply (proj1 (@findSourceFiles_in_order disk)
           [lit "a.ts"; lit "src"; lit "a.ts"]); reflexivity.
Defined.

(** [findSourceFiles_regular_files] on two mentions of a.ts. *)
Lemma findSourceFiles_regular_files_witness :
  let disk := exampleDisk (Ok (Some [lit "a.ts"; lit "a.ts"])) in
  findSourceFiles = [lit "a.ts"; lit "a.ts"].
Proof.
  intros disk.
  apply (@findSourceFiles_regular_files disk [lit "a.ts"; lit "a.ts"]).
  - reflexivity.
  - repeat constructor.
Defined.

(** [findSourceFiles_all_or_nothing] on a directory followed by a pattern
    on which [glob.sync] throws. *)
Lemma findSourceFiles_all_or_nothing_witness :
  let disk := exampleDisk (Ok (Some [lit "src"; lit "{"])) in
  findSourceFiles = [].
Proof.
  intros disk.
  apply (@findSourceFiles_all_or_nothing disk [lit "src"; lit "{"] (lit "{")).
  - reflexivity.
  - right; left; reflexivity.
  - reflexivity.
Defined.

(** ** The whole run, continued *)

Section More_runs.

Context {packages : Packages}.

#[local] Opaque TOKEN_START TOKEN_END.

(** X18.  When no source file is found, the run is [updateReadme] on two
    empty catalogs: the tables README.md held between its markers are
    replaced by two blank lines. *)
Theorem updateApiReadme_no_sources (w : World) (pre region post : jsstring) :
  let readme := pre ++ TOKEN_START ++ region ++ TOKEN_END ++ post in
  sourceFiles w = [] ->
  fs w README = Some readme ->
  region <> [] ->
  forallb (fun j => length pre <=? j) (occurrences TOKEN_START readme) = true ->
  forallb (fun m => m <=? length pre + length TOKEN_START + length region)
    (occurrences TOKEN_END readme) = true ->
  updateApiReadme w = updateReadme [] [] w
  /\ fs (snd (updateApiReadme w)) README
     = Some (pre ++ TOKEN_START ++ [LF; LF; LF; LF] ++ TOKEN_END ++ post).
Proof.
  intros readme Hnone Hfs Hne Hfirst Hlast.
  assert (E : updateApiReadme w = updateReadme [] [] w).
  { unfold updateApiReadme, bind, collectExports. rewrite Hnone. reflexivity. }
  split; [exact E|]. rewrite E.
  rewrite (updateReadme_content [] [] w readme Hfs).
  f_equal. exact (merge_nothing pre region post Hne Hfirst Hlast).
Qed.

(** *** Running the task twice *)

(** Visiting a statement never looks at the world. *)
Lemma visitStatement_fst (file cat : jsstring) (node : Statement)
    (c : Catalog) (w1 w2 : World) :
  fst (visitStatement file cat node c w1)
  = fst (visitStatement file cat node c w2).
Proof.
  destruct node as [declaration leadingComments | kind]; cbn [visitStatement];
    [|reflexivity].
  destruct (isEmpty (getExportedName declaration)); [reflexivity|].
  unfold bind, liftResult.
  destruct (identifier (getExportedName declaration) declaration);
    [|reflexivity].
  destruct (findLastBlockComment leadingComments); [|reflexivity].
  cbv zeta. destruct (isFunctionDeclaration declaration); reflexivity.
Qed.

Lemma forEach_fst {A S} (f : A -> S -> M S) (R : World -> World -> Prop)
    (xs : list A) :
  (forall x acc w1 w2,
      In x xs -> R w1 w2 ->
      fst (f x acc w1) = fst (f x acc w2)
      /\ R (snd (f x acc w1)) (snd (f x acc w2))) ->
  forall acc w1 w2,
    R w1 w2 -> fst (forEach f xs acc w1) = fst (forEach f xs acc w2).
Proof.
  induction xs as [|x xs IH]; intros Hf acc w1 w2 HR; [reflexivity|].
  cbn [forEach]. unfold bind.
  destruct (Hf x acc w1 w2 (or_introl eq_refl) HR) as [Hfst Hsnd].
  destruct (f x acc w1) as [r1 w1'], (f x acc w2) as [r2 w2'].
  cbn [fst snd] in *. subst r2. destruct r1 as [acc'|e]; [|reflexivity].
  apply IH; [|exact Hsnd].
  intros y a0 u1 u2 Hy. apply Hf. right; exact Hy.
Qed.

(** The catalogs depend on the source files only. *)
Lemma collectExports_fst (w1 w2 : World) :
  sourceFiles w1 = sourceFiles w2 ->
  (forall file, In file (sourceFiles w1) -> fs w1 file = fs w2 file) ->
  fst (collectExports w1) = fst (collectExports w2).
Proof.
  intros Hfiles Hfs. unfold collectExports. rewrite <- Hfiles.
  apply forEach_fst
    with (R := fun u1 u2 =>
                 forall file, In file (sourceFiles w1) ->
                              fs u1 file = fs u2 file);
    [|exact Hfs].
  intros file acc u1 u2 Hin HR. split.
  - unfold visitFile, bind, readFileSync. rewrite (HR file Hin).
    destruct (fs u2 file) as [content|]; [|reflexivity].
    unfold liftResult.
    destruct (babelParse file content) as [body|e]; [|reflexivity].
    apply forEach_fst with (R := fun _ _ => True); [|exact I].
    intros node a0 v1 v2 _ _. split; [apply visitStatement_fst | exact I].
  - intros g Hg.
    destruct (visitFile_Extends [file] file acc u1 (or_introl eq_refl))
      as (_ & H1 & _).
    destruct (visitFile_Extends [file] file acc u2 (or_introl eq_refl))
      as (_ & H2 & _).
    rewrite H1, H2. apply HR, Hg.
Qed.

(** X19.  Take a run of the whole task that builds its catalogs without an
    exception, in a world where README.md exists and is not itself a
    source file, and suppose the rendered tables hold no [$].  Running
    the task again on what that run left builds the same catalogs, returns
    normally and writes nothing. *)
Theorem updateApiReadme_twice (w w1 : World) (c : Catalog) (readme : jsstring) :
  collectExports w = (Ok c, w1) ->
  ~ In README (sourceFiles w) ->
  fs w README = Some readme ->
  ~ In DOLLAR (tables (exportedTypes c) (exportedFunctions c)) ->
  let w' := snd (updateApiReadme w) in
  fst (collectExports w') = Ok c
  /\ fst (updateApiReadme w') = Ok tt
  /\ writesOf (events (snd (updateApiReadme w'))) = writesOf (events w').
Proof.
  intros Hc Hnot Hfs Hplain w'.
  (* the world after the construction of the catalogs *)
  pose proof (collectExports_Extends w) as Hext. rewrite Hc in Hext.
  destruct Hext as (Hsf1 & Hfs1 & _). cbn [snd] in *.
  assert (Hreadme1 : fs w1 README = Some readme) by (rewrite Hfs1; exact Hfs).
  (* the world after the first run *)
  assert (Hw' : w' = snd (updateReadme (exportedTypes c) (exportedFunctions c)
                            w1)).
  { unfold w', updateApiReadme, bind. rewrite Hc. reflexivity. }
  assert (Hsf' : sourceFiles w' = sourceFiles w).
  { rewrite Hw'.
    destruct (updateReadme_run (exportedTypes c) (exportedFunctions c)
                w1 readme Hreadme1) as [Hsame Hdiff].
    destruct (list_eq_dec N.eq_dec
                (merge (exportedTypes c) (exportedFunctions c) readme) readme)
      as [E|E]; [rewrite (Hsame E) | rewrite (Hdiff E)]; exact Hsf1. }
  assert (Hfs' : forall file, In file (sourceFiles w') ->
                              fs w' file = fs w file).
  { intros file Hin. rewrite Hsf' in Hin.
    assert (Hne : streq file README = false).
    { apply streq_neq. intros ->. contradiction. }
    rewrite Hw'.
    destruct (updateReadme_run (exportedTypes c) (exportedFunctions c)
                w1 readme Hreadme1) as [Hsame Hdiff].
    destruct (list_eq_dec N.eq_dec
                (merge (exportedTypes c) (exportedFunctions c) readme) readme)
      as [E|E]; [rewrite (Hsame E) | rewrite (Hdiff E)]; cbn [snd log fs].
    - rewrite Hfs1. reflexivity.
    - rewrite Hne, Hfs1. reflexivity. }
  assert (Hc' : fst (collectExports w') = Ok c).
  { rewrite (collectExports_fst w' w Hsf' Hfs'), Hc. reflexivity. }
  split; [exact Hc'|].
  (* the second run *)
  pose proof (collectExports_Extends w') as Hext'.
  destruct (collectExports w') as [r2 w2] eqn:Ec2. cbn [fst snd] in *.
  subst r2. destruct Hext' as (_ & Hfs2 & evs & Hev & Hall).
  assert (Hreadme' : fs w' README
                     = Some (merge (exportedTypes c) (exportedFunctions c)
                               readme))
    by (rewrite Hw'; apply updateReadme_content, Hreadme1).
  assert (Hreadme2 : fs w2 README
                     = Some (merge (exportedTypes c) (exportedFunctions c)
                               readme))
    by (rewrite Hfs2; exact Hreadme').
  assert (Hrun : updateApiReadme w'
                 = (Ok tt, log (ReadFile README) w2)).
  { unfold updateApiReadme, bind. rewrite Ec2.
    apply (updateReadme_run (exportedTypes c) (exportedFunctions c) w2 _
             Hreadme2).
    apply merge_idempotent, Hplain. }
  rewrite Hrun. cbn [fst snd log events]. split; [reflexivity|].
  rewrite Hev, !writesOf_app, (writesOf_scanning _ _ Hall).
  cbn. rewrite !app_nil_r. reflexivity.
Qed.

End More_runs.

(** [updateApiReadme_no_sources] on [readmeWithRegion]. *)
Lemma updateApiReadme_no_sources_witness :
  let packages := examplePackages [] in
  let w := exampleWorld [] readmeWithRegion in
  updateApiReadme w = updateReadme [] [] w
  /\ fs (snd (updateApiReadme w)) README
     = Some ((lit "# API" ++ [LF]) ++ TOKEN_START ++ [LF; LF; LF; LF]
               ++ TOKEN_END ++ [LF] ++ lit "License: MIT").
Proof.
  intros packages w.
  apply (@updateApiReadme_no_sources packages w
           (lit "# API" ++ [LF]) ([LF] ++ lit "old" ++ [LF])
           ([LF] ++ lit "License: MIT")).
  - reflexivity.
  - reflexivity.
  - discriminate.
  - reflexivity.
  - reflexivity.
Defined.

(** [updateApiReadme_twice] on the package of src/math.ts. *)
Lemma updateApiReadme_twice_witness :
  let packages := examplePackages exampleProgram in
  let w := exampleSources [mathFile] in
  let w' := snd (updateApiReadme w) in
  fst (collectExports w')
  = Ok {| exportedFunctions :=
            [(mathFile, lit "`add(a, b)`", lit "Adds two numbers.")];
          exportedTypes := [] |}
  /\ fst (updateApiReadme w') = Ok tt
  /\ writesOf (events (snd (updateApiReadme w'))) = writesOf (events w').
Proof.
  intros packages w.
  apply (@updateApiReadme_twice packages w (log (ReadFile mathFile) w)
           {| exportedFunctions :=
                [(mathFile, lit "`add(a, b)`", lit "Adds two numbers.")];
              exportedTypes := [] |}
           readmeWithRegion).
  - reflexivity.
  - intros [H | []]. discriminate H.
  - reflexivity.
  - apply not_In_existsb. reflexivity.
Defined.
